(** * DeepKoopman: data conditioning ([deepk/data.py]) and error metrics
      ([deepk/errors.py])

    The tensors of the program hold IEEE 754 binary floating-point numbers.
    They are modelled with the Standard Library's executable specification
    of IEEE 754 arithmetic ([SpecFloat]): a number is a [spec_float], every
    operation is the correctly rounded one (round to nearest, ties to
    even) of the format given by its precision and maximal exponent.  A
    one-dimensional tensor is a list of numbers, a two-dimensional one a
    list of rows.  A Python [float] is a binary64 number; the objects used
    as keys of a [dict] or elements of a [set] carry their identity.
    Python exceptions are the error side of [result].

    The file has the model first ([IEEE], [Py], [torch], [utils],
    [errors], [DataHandler]), then the notions the properties are stated
    with ([Spec], [Example]), then the facts about IEEE 754 rounding the
    proofs need, and last the properties of the two modules. *)

From Stdlib Require Import ZArith Bool Lia String DecimalString List.
From Stdlib Require Import SpecFloat.
Import ListNotations.

Local Open Scope Z_scope.

(** ** Floating-point formats *)

(** The floating-point element types of torch. *)
Inductive dtype := float16 | bfloat16 | float32 | float64.

Definition dprec (d : dtype) : Z :=
  match d with float16 => 11 | bfloat16 => 8 | float32 => 24 | float64 => 53 end.

Definition demax (d : dtype) : Z :=
  match d with float16 => 16 | bfloat16 => 128 | float32 => 128 | float64 => 1024 end.

Module IEEE.

(** Conversion of a number to the format [(prec, emax)]: the nearest
    number of that format. Zeros, infinities and NaN are kept. *)
Definition cast (prec emax : Z) (x : spec_float) : spec_float :=
  match x with
  | S754_finite s m e => binary_round prec emax s m e
  | _ => x
  end.

(** The number of the format nearest to the integer [z]. *)
Definition of_Z (prec emax : Z) (z : Z) : spec_float :=
  binary_normalize prec emax z 0 false.

Definition is_nan (x : spec_float) : bool :=
  match x with S754_nan => true | _ => false end.

Definition is_finite (x : spec_float) : bool :=
  match x with S754_zero _ | S754_finite _ _ _ => true | _ => false end.

Definition is_zero (x : spec_float) : bool :=
  match x with S754_zero _ => true | _ => false end.

(** Rounding to the nearest integer, halves to the even one (what
    [torch.round] does to each element): the binary point is moved to
    exponent 0 with the rounding bits recorded, then the mantissa is
    rounded. The sign of a result that rounds to zero is kept. *)
Definition round (prec emax : Z) (x : spec_float) : spec_float :=
  match x with
  | S754_finite s m e =>
      match e with
      | Zneg _ =>
          let mrs := fst (shr (shr_record_of_loc (Zpos m) loc_Exact) e (- e)) in
          match round_nearest_even (shr_m mrs) (loc_of_shr_record mrs) with
          | Zpos n => binary_round prec emax s n 0
          | _ => S754_zero s
          end
      | _ => x
      end
  | _ => x
  end.

(** The exact value of a number when it is an integer. *)
Definition to_Z (x : spec_float) : option Z :=
  match x with
  | S754_zero _ => Some 0
  | S754_finite s m e =>
      match e with
      | Zneg p =>
          if Zpos m mod 2 ^ Zpos p =? 0
          then Some (cond_Zopp s (Zpos m / 2 ^ Zpos p))
          else None
      | _ => Some (cond_Zopp s (Zpos m * 2 ^ e))
      end
  | _ => None
  end.

(** The value times ten, rounded to the nearest integer (halves to even):
    the tenths of the number rounded to one decimal. *)
Definition tenths (x : spec_float) : option Z :=
  match x with
  | S754_zero _ => Some 0
  | S754_finite s m e =>
      let n := 10 * Zpos m in
      match e with
      | Zneg p =>
          let d := 2 ^ Zpos p in
          let q := n / d in
          let r := n mod d in
          Some (cond_Zopp s
            (match 2 * r ?= d with
             | Lt => q
             | Gt => q + 1
             | Eq => if Z.even q then q else q + 1
             end))
      | _ => Some (cond_Zopp s (n * 2 ^ e))
      end
  | _ => None
  end.

(** The number with sign [s], mantissa [m] and exponent [e] as
    [binary_round_aux] assembles its result: zero when the mantissa is
    zero, infinity when the exponent is above the largest one. *)
Definition pack (prec emax : Z) (s : bool) (m e : Z) : spec_float :=
  match m with
  | Z0 => S754_zero s
  | Zpos p => if e <=? emax - prec then S754_finite s p e else S754_infinity s
  | Zneg _ => S754_nan
  end.

End IEEE.

(** ** Python values and exceptions *)

Module Py.

(** The two places at which the constructor raises a [ValueError]: the
    built-in [max] applied to an empty dictionary, and the explicit [raise]
    of the spacing check, whose message shows the [ttr] argument. *)
Inductive value_error :=
| max_empty_sequence
| not_equally_spaced (ttr : list spec_float).

Inductive exn :=
| AssertionError (msg : string)
| RuntimeError
| IndexError
| ValueError (what : value_error).

Inductive result (A : Type) :=
| Ok (a : A)
| Raise (e : exn).

Arguments Ok {A} a.
Arguments Raise {A} e.

Definition bind {A B : Type} (c : result A) (k : A -> result B) : result B :=
  match c with
  | Ok a => k a
  | Raise e => Raise e
  end.

(** [assert cond, msg] *)
Definition assert (cond : bool) (msg : string) : result unit :=
  if cond then Ok tt else Raise (AssertionError msg).

(** [len(l)] and [str(n)] of a length. *)
Definition len {A : Type} (l : list A) : nat := List.length l.

Definition str (n : nat) : string := NilZero.string_of_uint (Nat.to_uint n).

(** A [float] object: a binary64 number, and the identity of the object
    ([id(x)]), which the lookups of [dict] and [set] test before they test
    equality. *)
Record float := { ob_id : nat; ob_fval : spec_float }.

(** [x - y] and [x == y] on the numbers of two [float] objects. *)
Definition float_sub (x y : spec_float) : spec_float := SFsub 53 1024 x y.
Definition float_eq (x y : spec_float) : bool := SFeqb x y.

(** The literals [1], [100.] and [torch.inf]. *)
Definition one : spec_float := IEEE.of_Z 53 1024 1.
Definition hundred : spec_float := IEEE.of_Z 53 1024 100.
Definition inf : spec_float := S754_infinity false.

(** The key test of [dict] and [set]: [a is b or a == b]. A NaN is equal
    to nothing, so a NaN key is found again through its identity only. *)
Definition same_key (a b : float) : bool :=
  Nat.eqb (ob_id a) (ob_id b) || float_eq (ob_fval a) (ob_fval b).

(** A dictionary from [float] keys to counts, in insertion order. *)
Definition dict := list (float * nat).

Definition keys (d : dict) : list float := List.map fst d.

(** [d.get(k)] ([None] when the key is absent). *)
Definition get (d : dict) (k : float) : option nat :=
  option_map snd (find (fun kv => same_key (fst kv) k) d).

(** [d[k] += 1] on a [defaultdict(int)]: a missing key is first inserted
    with count 0, at the end. *)
Fixpoint incr (d : dict) (k : float) : dict :=
  match d with
  | [] => [(k, 1%nat)]
  | (k', c) :: d' =>
      if same_key k' k then (k', S c) :: d' else (k', c) :: incr d' k
  end.

(** [max(iterable, key=f)]: the first item whose key is not exceeded by a
    later one; [None] stands for the [ValueError] on an empty iterable.
    The keys compared are counts; an absent count ([None]) does not occur
    when the items are the keys of the dictionary itself. *)
Definition count_of (c : option nat) : nat :=
  match c with Some n => n | None => 0%nat end.

Fixpoint max_from {A : Type} (key : A -> option nat) (best : A) (l : list A) : A :=
  match l with
  | [] => best
  | x :: l' =>
      max_from key (if (count_of (key best) <? count_of (key x))%nat then x else best) l'
  end.

Definition max {A : Type} (key : A -> option nat) (l : list A) : option A :=
  match l with
  | [] => None
  | x :: l' => Some (max_from key x l')
  end.

(** A [set] of [float] objects, in insertion order. *)
Definition add (s : list float) (x : float) : list float :=
  if existsb (fun y => same_key y x) s then s else s ++ [x].

Definition set (l : list float) : list float := fold_left add l [].

(** [s == {1}]: same number of elements, and every element of [s] is in
    [{1}]. *)
Definition set_eq_one (s : list float) : bool :=
  Nat.eqb (List.length s) 1 && forallb (fun x => float_eq (ob_fval x) one) s.

End Py.

Notation "x <- c ;; k" := (Py.bind c (fun x => k))
  (at level 61, c at next level, right associativity).
Notation "c ;;; k" := (Py.bind c (fun _ => k))
  (at level 61, right associativity).

(** ** The part of torch the program uses *)

Module torch.

Section Dtype.
Variable dt : dtype.

(** A Python scalar that meets a tensor in an operation is converted to
    the element type of the tensor. *)
Definition scalar (v : spec_float) : spec_float := IEEE.cast (dprec dt) (demax dt) v.

(** [x.item()]: the element as a Python [float] (binary64). *)
Definition item (x : spec_float) : spec_float := IEEE.cast 53 1024 x.

Definition sub (x y : spec_float) : spec_float := SFsub (dprec dt) (demax dt) x y.
Definition div (x y : spec_float) : spec_float := SFdiv (dprec dt) (demax dt) x y.
Definition mul (x y : spec_float) : spec_float := SFmul (dprec dt) (demax dt) x y.
Definition add (x y : spec_float) : spec_float := SFadd (dprec dt) (demax dt) x y.

(** [torch.abs], [torch.round], [a - b] and [a / b] on flat tensors of the
    same shape. *)
Definition abs (X : list spec_float) : list spec_float := map SFabs X.

Definition round (X : list spec_float) : list spec_float :=
  map (IEEE.round (dprec dt) (demax dt)) X.

Definition tsub (X Y : list spec_float) : list spec_float :=
  map (fun p => sub (fst p) (snd p)) (combine X Y).

Definition tdiv (X Y : list spec_float) : list spec_float :=
  map (fun p => div (fst p) (snd p)) (combine X Y).

(** [X[X != torch.inf]]: the elements that are not plus infinity. *)
Definition ne_inf (x : spec_float) : bool := negb (Py.float_eq x Py.inf).

Definition select_ne_inf (X : list spec_float) : list spec_float :=
  filter ne_inf X.

(** The maximum of two elements as the reduction [torch.max] takes it: a
    NaN wins. *)
Definition max2 (a b : spec_float) : spec_float :=
  if IEEE.is_nan a then a else if SFltb b a then a else b.

(** [torch.max(X)] over all elements; a tensor without elements raises a
    [RuntimeError]. *)
Definition max (X : list spec_float) : Py.result spec_float :=
  match X with
  | [] => Py.Raise Py.RuntimeError
  | x :: X' => Py.Ok (fold_left max2 X' x)
  end.

(** [torch.mean(X)]: the sum of the elements, taken in their order,
    divided by their number; NaN for a tensor without elements. *)
Definition sum (X : list spec_float) : spec_float :=
  fold_left add X (S754_zero false).

Definition mean (X : list spec_float) : spec_float :=
  div (sum X) (IEEE.of_Z (dprec dt) (demax dt) (Z.of_nat (List.length X))).

End Dtype.

(** Tensors of one and of two dimensions share the elementwise
    operations. *)
Class Tensor (T : Type) := {
  tmap : (spec_float -> spec_float) -> T -> T;
  flatten : T -> list spec_float
}.

#[global] Instance vector : Tensor (list spec_float) :=
  {| tmap := @List.map spec_float spec_float; flatten := fun X => X |}.

#[global] Instance matrix : Tensor (list (list spec_float)) :=
  {| tmap := fun f => List.map (List.map f); flatten := @List.concat spec_float |}.

End torch.

(** ** [deepk/config.py] and [deepk/utils.py] *)

(** The two settings of [deepk.config] the data handler reads: whether the
    state data are normalized, and the element type of its tensors.
    [deepk/config.py] is not among the sources: both are parameters. *)
Record config := {
  normalize_Xdata : bool;
  _RTYPE : dtype
}.

Module utils.

Import torch.

(** Modelled from the spec: [utils._tensorize], which is not among the
    sources. It converts an array-like to a tensor of the configured
    element type; the optional arrays of the validation and test splits
    default to [None], whose length the constructor takes, so that [None]
    becomes the tensor without elements. The arrays are taken after
    conversion of their elements. *)
Definition _tensorize {A : Type} (arg : option (list A)) : list A :=
  match arg with
  | Some X => X
  | None => []
  end.

(** Modelled from the spec: [utils._scale], which is not among the
    sources. The spec calls [Xscale] the normalization divisor and [tscale]
    the time unit: every element is divided by the scalar. *)
Definition _scale {T : Type} `{Tensor T} (dt : dtype) (X : T) (scale : spec_float) : T :=
  tmap (fun x => div dt x (scalar dt scale)) X.

(** Modelled from the spec: [utils._shift], which is not among the
    sources. The spec calls [tshift] the offset that makes the training
    time start at zero: the scalar is subtracted from every element. *)
Definition _shift {T : Type} `{Tensor T} (dt : dtype) (X : T) (shift : spec_float) : T :=
  tmap (fun x => sub dt x (scalar dt shift)) X.

End utils.

(** ** [deepk/errors.py] *)

Module errors.

Import torch.

Section Metrics.
Variable dt : dtype.

(** [anae(ref, new)], on the elements of two tensors of the same shape in
    row-major order. *)
Definition anae (ref new : list spec_float) : spec_float :=
  let anae := tdiv dt (abs (tsub dt ref new)) (abs ref) in
  mul dt (scalar dt Py.hundred) (mean dt (select_ne_inf anae)).

Definition _naae (ref new : list spec_float) : spec_float :=
  div dt (mul dt (scalar dt Py.hundred) (mean dt (abs (tsub dt ref new))))
         (mean dt (abs ref)).

(** The dictionary [overall] returns has the three keys ['recon'], ['lin']
    and ['pred']. *)
Record overall_errors := {
  recon : spec_float;
  lin : spec_float;
  pred : spec_float
}.

Definition overall (X Y Xr Ypred Xpred : list spec_float) : overall_errors :=
  {| recon := anae X Xr;
     lin := anae Y Ypred;
     pred := anae X Xpred |}.

End Metrics.

End errors.

(** ** [deepk/data.py] *)

Module DataHandler.

Import torch utils.

(** The attributes of a [DataHandler] object. *)
Record t := {
  Xtr : list (list spec_float);
  Xva : list (list spec_float);
  Xte : list (list spec_float);
  ttr : list spec_float;
  tva : list spec_float;
  tte : list spec_float;
  Xscale : spec_float;
  tshift : spec_float;
  dts : Py.dict;
  tscale : spec_float
}.

(** The message of the size assertions. *)
Definition size_message (X t : string) (n m : nat) : string :=
  ("Expected '" ++ X ++ "' and '" ++ t
   ++ "' to have same length of 1st dimension, instead found "
   ++ Py.str n ++ " and " ++ Py.str m)%string.

(** [t[i+1].item() - t[i].item()] for [i] in [range(len(t) - 1)], each
    difference a new [float] object; [i0] is the index of the first. *)
Fixpoint differences (i0 : nat) (t : list spec_float) : list Py.float :=
  match t with
  | [] => []
  | a :: t' =>
      match t' with
      | [] => []
      | b :: _ =>
          {| Py.ob_id := i0; Py.ob_fval := Py.float_sub (item b) (item a) |}
          :: differences (S i0) t'
      end
  end.

Definition __init__ (cfg : config)
    (Xtr_ : list (list spec_float)) (ttr_ : list spec_float)
    (Xva_ : option (list (list spec_float))) (tva_ : option (list spec_float))
    (Xte_ : option (list (list spec_float))) (tte_ : option (list spec_float))
    : Py.result t :=
  let dt := _RTYPE cfg in
  let Xtr := _tensorize (Some Xtr_) in
  let Xva := _tensorize Xva_ in
  let Xte := _tensorize Xte_ in
  let ttr := _tensorize (Some ttr_) in
  let tva := _tensorize tva_ in
  let tte := _tensorize tte_ in
  (* Check sizes *)
  Py.assert (Nat.eqb (Py.len Xtr) (Py.len ttr))
    (size_message "Xtr" "ttr" (Py.len Xtr) (Py.len ttr)) ;;;
  Py.assert (Nat.eqb (Py.len Xva) (Py.len tva))
    (size_message "Xva" "tva" (Py.len Xva) (Py.len tva)) ;;;
  Py.assert (Nat.eqb (Py.len Xte) (Py.len tte))
    (size_message "Xte" "tte" (Py.len Xte) (Py.len tte)) ;;;
  (* Define Xscale, and normalize X data if applicable *)
  m <- max (abs (flatten Xtr)) ;;
  let Xscale := item m in
  let Xtr := if normalize_Xdata cfg then _scale dt Xtr Xscale else Xtr in
  let Xva := if normalize_Xdata cfg then _scale dt Xva Xscale else Xva in
  let Xte := if normalize_Xdata cfg then _scale dt Xte Xscale else Xte in
  (* Shift t data to make ttr start from 0 if it doesn't *)
  t0 <- match ttr with
        | [] => Py.Raise Py.IndexError
        | t0 :: _ => Py.Ok t0
        end ;;
  let tshift := item t0 in
  let ttr := _shift dt ttr tshift in
  let tva := _shift dt tva tshift in
  let tte := _shift dt tte tshift in
  (* Find differences between ttr values *)
  let dts := fold_left Py.incr (differences 0 ttr) [] in
  (* Define t scale as most common difference between ttr values, and
     normalize t data by it *)
  k <- match Py.max (Py.get dts) (Py.keys dts) with
       | None => Py.Raise (Py.ValueError Py.max_empty_sequence)
       | Some k => Py.Ok k
       end ;;
  let tscale := Py.ob_fval k in
  let ttr := _scale dt ttr tscale in
  let tva := _scale dt tva tscale in
  let tte := _scale dt tte tscale in
  (* Ensure that ttr now goes as [0,1,2,...], i.e. no gaps *)
  let ttr := round dt ttr in
  let dts_set := Py.set (differences 0 ttr) in
  if negb (Py.set_eq_one dts_set)
  then Py.Raise (Py.ValueError (Py.not_equally_spaced ttr_))
  else Py.Ok {| Xtr := Xtr; Xva := Xva; Xte := Xte;
                ttr := ttr; tva := tva; tte := tte;
                Xscale := Xscale; tshift := tshift;
                dts := dts; tscale := tscale |}.

End DataHandler.

(** ** Notions the properties are stated with *)

Module Spec.

Import torch.

(** [anae] as the specification words it: 100 times the mean of
    [|ref_i - new_i| / |ref_i|] over exactly the positions whose reference
    is nonzero. *)
Definition anae_nonzero_reference (dt : dtype) (ref new : list spec_float) : spec_float :=
  let kept := filter (fun p => negb (Py.float_eq (fst p) (S754_zero false))) (combine ref new) in
  mul dt (scalar dt Py.hundred)
    (mean dt (map (fun p => div dt (SFabs (sub dt (fst p) (snd p))) (SFabs (fst p))) kept)).




(** The same number, written the same way. *)
Definition same (x y : spec_float) : bool :=
  match x, y with
  | S754_zero a, S754_zero b => Bool.eqb a b
  | S754_infinity a, S754_infinity b => Bool.eqb a b
  | S754_nan, S754_nan => true
  | S754_finite a m e, S754_finite b n f => Bool.eqb a b && Pos.eqb m n && Z.eqb e f
  | _, _ => false
  end.

Definition insert (x : spec_float) (l : list spec_float) : list spec_float :=
  if existsb (same x) l then l else x :: l.

(** All ways to put the elements of a list into two lists. *)
Fixpoint splits {A : Type} (l : list A) : list (list A * list A) :=
  match l with
  | [] => [([], [])]
  | x :: l' =>
      flat_map (fun p => [(x :: fst p, snd p); (fst p, x :: snd p)]) (splits l')
  end.

(** The numbers a sum of the elements of [l] can be, whatever the order
    and the grouping in which a reduction adds them: the elements are put
    into two groups in every way, the groups are summed in every way, and
    the two sums are added. The list holds every number once; [fuel] bounds
    the depth of the grouping, the length of [l] is enough. *)
Fixpoint sums (dt : dtype) (fuel : nat) (l : list spec_float) : list spec_float :=
  match fuel with
  | O => []
  | S fuel' =>
      match l with
      | [] => []
      | [x] => [x]
      | _ =>
          fold_right insert []
            (flat_map
               (fun p =>
                  flat_map (fun a => map (add dt a) (sums dt fuel' (snd p)))
                           (sums dt fuel' (fst p)))
               (splits l))
      end
  end.

(** Every element of a tensor is a number of the element type. *)
Definition valid (dt : dtype) (X : list spec_float) : Prop :=
  Forall (fun x => valid_binary (dprec dt) (demax dt) x = true) X.

(** The numbers [torch.round] leaves in a tensor: numbers of the element
    type that, when finite, are integers. *)
Definition rounded (dt : dtype) (x : spec_float) : Prop :=
  valid_binary (dprec dt) (demax dt) x = true
  /\ (IEEE.is_finite x = true -> exists z, IEEE.to_Z x = Some z).

(** A finite number other than zero. *)
Definition finite_nonzero (x : spec_float) : bool :=
  match x with S754_finite _ _ _ => true | _ => false end.

(** The floating-point number 1 of an element type. *)
Definition one (dt : dtype) : spec_float := IEEE.of_Z (dprec dt) (demax dt) 1.

End Spec.

(** The tensors of the example in the docstrings of [anae] and [_naae],
    built as [torch.tensor] builds them from Python literals: each decimal
    literal is the nearest binary64 number, converted to float32. *)
Module Example.

Definition literal (n d : Z) : spec_float :=
  SFdiv 53 1024 (IEEE.of_Z 53 1024 n) (IEEE.of_Z 53 1024 d).

Definition tensor (rows : list (list spec_float)) : list (list spec_float) :=
  map (map (torch.scalar float32)) rows.

Definition ref : list (list spec_float) :=
  tensor [[literal (-1) 10; literal 2 10; literal 0 1];
          [literal 100 1; literal 200 1; literal 300 1]].

Definition new : list (list spec_float) :=
  tensor [[literal (-11) 100; literal 15 100; literal 1 100];
          [literal 105 1; literal 210 1; literal 285 1]].

(** The ratios [anae] averages, and the deviations and references [_naae]
    averages. *)
Definition ratios : list spec_float :=
  torch.select_ne_inf
    (torch.tdiv float32
       (torch.abs (torch.tsub float32 (torch.flatten ref) (torch.flatten new)))
       (torch.abs (torch.flatten ref))).

Definition deviations : list spec_float :=
  torch.abs (torch.tsub float32 (torch.flatten ref) (torch.flatten new)).

Definition references : list spec_float := torch.abs (torch.flatten ref).

(** The two errors from the sums their means are taken from. *)
Definition anae_of_sum (s : spec_float) : spec_float :=
  torch.mul float32 (torch.scalar float32 Py.hundred) (torch.div float32 s (IEEE.of_Z 24 128 5)).

Definition naae_of_sums (s1 s2 : spec_float) : spec_float :=
  torch.div float32
    (torch.mul float32 (torch.scalar float32 Py.hundred)
       (torch.div float32 s1 (IEEE.of_Z 24 128 6)))
    (torch.div float32 s2 (IEEE.of_Z 24 128 6)).

Definition rounds_to (t : Z) (x : spec_float) : bool :=
  match IEEE.tenths x with
  | Some z => z =? t
  | None => false
  end.

Definition cfg32 : config := {| normalize_Xdata := true; _RTYPE := float32 |}.

Definition f32 (z : Z) : spec_float := IEEE.of_Z 24 128 z.

(** Three training samples with two states each, at the times 100, 203
    and 298, and validation times in no order, with an infinity and a
    NaN. *)
Definition Xtr3 : list (list spec_float) :=
  [[f32 1; f32 (-4)]; [f32 2; f32 3]; [f32 0; f32 2]].

Definition ttr3 : list spec_float := [f32 100; f32 203; f32 298].


End Example.

(** * IEEE 754 arithmetic: rounding, validity and exactness *)

(** ** The number of binary digits of a mantissa *)

Section Digits.

Lemma digits2_size p : digits2_pos p = Pos.size p.
Proof. induction p; simpl; congruence. Qed.

Lemma Zdigits2_log2 m : 0 < m -> Zdigits2 m = Z.log2 m + 1.
Proof.
  destruct m as [|p|p]; try lia. intros _. simpl. rewrite digits2_size.
  destruct p; simpl; lia.
Qed.

Lemma Zdigits2_nonneg m : 0 <= Zdigits2 m.
Proof. destruct m; simpl; lia. Qed.

Lemma Zdigits2_pos m : 0 < m -> 0 < Zdigits2 m.
Proof. destruct m; simpl; lia. Qed.

Lemma Zdigits2_bounds m : 0 < m -> 2 ^ (Zdigits2 m - 1) <= m < 2 ^ Zdigits2 m.
Proof.
  intros H. rewrite (Zdigits2_log2 m H).
  replace (Z.log2 m + 1 - 1) with (Z.log2 m) by lia.
  replace (Z.log2 m + 1) with (Z.succ (Z.log2 m)) by lia.
  apply Z.log2_spec. exact H.
Qed.

Lemma Zdigits2_unique m k : 0 < k -> 2 ^ (k - 1) <= m < 2 ^ k -> Zdigits2 m = k.
Proof.
  intros Hk Hm. assert (0 < m) by (assert (0 < 2 ^ (k - 1)) by (apply Z.pow_pos_nonneg; lia); lia).
  rewrite (Zdigits2_log2 m H).
  rewrite (Z.log2_unique m (k - 1)); try lia.
  replace (Z.succ (k - 1)) with k by lia. exact Hm.
Qed.

Lemma Zdigits2_le a b : 0 <= a <= b -> Zdigits2 a <= Zdigits2 b.
Proof.
  intros [Ha Hab]. destruct (Z.eq_dec a 0) as [->|Hn].
  - apply Zdigits2_nonneg.
  - rewrite !Zdigits2_log2 by lia. apply Z.add_le_mono_r, Z.log2_le_mono. lia.
Qed.

Lemma Zdigits2_ge_pow m k : 0 < k -> 2 ^ (k - 1) <= m -> k <= Zdigits2 m.
Proof.
  intros Hk Hm.
  assert (0 < 2 ^ (k - 1)) by (apply Z.pow_pos_nonneg; lia).
  destruct (Z_lt_le_dec (Zdigits2 m) k) as [Hlt|]; [|assumption].
  exfalso. destruct (Zdigits2_bounds m) as [_ Hu]; [lia|].
  assert (2 ^ Zdigits2 m <= 2 ^ (k - 1)).
  { apply Z.pow_le_mono_r; try lia. }
  lia.
Qed.

Lemma Zdigits2_lt_pow m k : 0 <= k -> 0 <= m < 2 ^ k -> Zdigits2 m <= k.
Proof.
  intros Hk [Hm Hlt]. destruct (Z.eq_dec m 0) as [->|Hn]; [simpl; lia|].
  destruct (Z_lt_le_dec k (Zdigits2 m)) as [Hgt|]; [|assumption].
  exfalso. destruct (Zdigits2_bounds m) as [Hl _]; [lia|].
  assert (2 ^ k <= 2 ^ (Zdigits2 m - 1)) by (apply Z.pow_le_mono_r; lia).
  lia.
Qed.

Lemma Zdigits2_mul_pow2 m k : 0 < m -> 0 <= k -> Zdigits2 (m * 2 ^ k) = Zdigits2 m + k.
Proof.
  intros Hm Hk. destruct (Zdigits2_bounds m Hm) as [Hl Hu].
  pose proof (Zdigits2_pos m Hm).
  apply Zdigits2_unique; [lia|].
  replace (Zdigits2 m + k - 1) with ((Zdigits2 m - 1) + k) by lia.
  rewrite !Z.pow_add_r by lia.
  assert (0 < 2 ^ k) by (apply Z.pow_pos_nonneg; lia). nia.
Qed.

Lemma Zdigits2_div_pow2 m k :
  0 <= k -> 2 ^ k <= m -> Zdigits2 (m / 2 ^ k) = Zdigits2 m - k.
Proof.
  intros Hk Hm.
  assert (Hp : 0 < 2 ^ k) by (apply Z.pow_pos_nonneg; lia).
  assert (Hm0 : 0 < m) by lia.
  destruct (Zdigits2_bounds m Hm0) as [Hl Hu].
  assert (Hd : k < Zdigits2 m).
  { destruct (Z_lt_le_dec k (Zdigits2 m)); [assumption|exfalso].
    assert (2 ^ Zdigits2 m <= 2 ^ k) by (apply Z.pow_le_mono_r; lia). lia. }
  apply Zdigits2_unique; [lia|]. split.
  - apply Z.div_le_lower_bound; [lia|].
    rewrite <- Z.pow_add_r by lia.
    replace (k + (Zdigits2 m - k - 1)) with (Zdigits2 m - 1) by lia. exact Hl.
  - apply Z.div_lt_upper_bound; [lia|].
    rewrite <- Z.pow_add_r by lia.
    replace (k + (Zdigits2 m - k)) with (Zdigits2 m) by lia. exact Hu.
Qed.

Lemma Zdigits2_pow2 k : 0 <= k -> Zdigits2 (2 ^ k) = k + 1.
Proof.
  intros Hk. apply Zdigits2_unique; [lia|].
  replace (k + 1 - 1) with k by lia. split; [lia|].
  apply Z.pow_lt_mono_r; lia.
Qed.

End Digits.

(** ** Shifting a mantissa to the right, with its rounding bits *)

Section Shift.

Lemma iter_pos_nat {A} (f : A -> A) p : forall x,
  iter_pos f p x = Nat.iter (Pos.to_nat p) f x.
Proof.
  induction p as [p IH|p IH|]; intros x; cbn [iter_pos].
  - rewrite !IH, <- Nat.iter_succ_r, <- Nat.iter_add. f_equal. lia.
  - rewrite !IH, <- Nat.iter_add. f_equal. lia.
  - reflexivity.
Qed.

Lemma shr_1_m mrs : 0 <= shr_m mrs -> shr_m (shr_1 mrs) = shr_m mrs / 2.
Proof.
  destruct mrs as [m r s]. simpl. intros Hm.
  destruct m as [|[p|p|]|p]; try lia; simpl; try reflexivity.
  - rewrite Pos2Z.inj_xI. apply Z.div_unique with (r := 1); lia.
  - rewrite Pos2Z.inj_xO. apply Z.div_unique with (r := 0); lia.
Qed.

Lemma shr_1_exact mrs :
  0 <= shr_m mrs -> shr_r mrs = false -> shr_s mrs = false -> shr_m mrs mod 2 = 0 ->
  shr_r (shr_1 mrs) = false /\ shr_s (shr_1 mrs) = false.
Proof.
  destruct mrs as [m r s]. simpl. intros Hm -> -> Hmod.
  destruct m as [|[p|p|]|p]; try lia; simpl; auto.
  - exfalso. rewrite Pos2Z.inj_xI in Hmod.
    rewrite Z.add_comm, Z.mul_comm, Z_mod_plus_full in Hmod. discriminate.
  - discriminate.
Qed.

Lemma shr_iter_m n : forall mrs,
  0 <= shr_m mrs -> shr_m (Nat.iter n shr_1 mrs) = shr_m mrs / 2 ^ Z.of_nat n.
Proof.
  induction n as [|n IH]; intros mrs Hm.
  - simpl. now rewrite Z.div_1_r.
  - rewrite Nat.iter_succ, shr_1_m.
    + rewrite IH by assumption. rewrite Z.div_div by lia.
      rewrite Nat2Z.inj_succ, Z.pow_succ_r by lia. f_equal. lia.
    + rewrite IH by assumption. apply Z.div_pos; lia.
Qed.

Lemma shr_iter_exact n : forall mrs,
  0 <= shr_m mrs -> shr_r mrs = false -> shr_s mrs = false ->
  shr_m mrs mod 2 ^ Z.of_nat n = 0 ->
  shr_r (Nat.iter n shr_1 mrs) = false /\ shr_s (Nat.iter n shr_1 mrs) = false.
Proof.
  induction n as [|n IH]; intros mrs Hm Hr Hs Hmod.
  - simpl. auto.
  - rewrite Nat.iter_succ.
    rewrite Nat2Z.inj_succ, Z.pow_succ_r in Hmod by lia.
    assert (Hp : 0 < 2 ^ Z.of_nat n) by (apply Z.pow_pos_nonneg; lia).
    apply Z.mod_divide in Hmod; [|lia]. destruct Hmod as [q Hq].
    assert (Hmod' : shr_m mrs mod 2 ^ Z.of_nat n = 0).
    { apply Z.mod_divide; [lia|]. exists (q * 2). lia. }
    destruct (IH mrs Hm Hr Hs Hmod') as [Hr' Hs'].
    apply shr_1_exact; try assumption.
    + rewrite shr_iter_m by assumption. apply Z.div_pos; lia.
    + rewrite shr_iter_m by assumption. rewrite Hq.
      replace (q * (2 * 2 ^ Z.of_nat n)) with ((q * 2) * 2 ^ Z.of_nat n) by lia.
      rewrite Z.div_mul by lia. apply Z.mod_divide; [lia|]. exists q. lia.
Qed.

Lemma loc_of_exact mrs :
  shr_r mrs = false -> shr_s mrs = false -> loc_of_shr_record mrs = loc_Exact.
Proof. destruct mrs as [m r s]. simpl. now intros -> ->. Qed.

(** [shr] by [k] binary places. *)
Lemma shr_spec m l e n :
  0 <= m ->
  let k := Z.max 0 n in
  let mrs := fst (shr (shr_record_of_loc m l) e n) in
  snd (shr (shr_record_of_loc m l) e n) = e + k
  /\ shr_m mrs = m / 2 ^ k
  /\ (l = loc_Exact -> m mod 2 ^ k = 0 -> loc_of_shr_record mrs = loc_Exact).
Proof.
  intros Hm k mrs.
  assert (Hrec : shr_m (shr_record_of_loc m l) = m)
    by (destruct l as [|[]]; reflexivity).
  destruct n as [|p|p]; subst k mrs; cbn [shr fst snd Z.max Z.compare].
  - rewrite Z.pow_0_r, Z.div_1_r, Hrec. split; [lia|split; [reflexivity|]].
    intros -> _. reflexivity.
  - rewrite iter_pos_nat. split; [reflexivity|split].
    + rewrite shr_iter_m; rewrite Hrec; [|assumption]. now rewrite positive_nat_Z.
    + intros -> Hmod. rewrite <- (positive_nat_Z p) in Hmod.
      destruct (shr_iter_exact (Pos.to_nat p) (shr_record_of_loc m loc_Exact)) as [Hr Hs];
        simpl; try assumption; try reflexivity.
      now apply loc_of_exact.
  - rewrite Z.pow_0_r, Z.div_1_r, Hrec. split; [lia|split; [reflexivity|]].
    intros -> _. reflexivity.
Qed.

Lemma round_nearest_even_cases m l :
  round_nearest_even m l = m \/ (round_nearest_even m l = m + 1 /\ l <> loc_Exact).
Proof.
  destruct l as [|[]]; simpl; auto.
  - destruct (Z.even m); [auto|right; split; [reflexivity|discriminate]].
  - right; split; [reflexivity|discriminate].
Qed.

End Shift.

(** ** Rounding to a format *)

Section Round.

Variables prec emax : Z.
Hypothesis Hprec : 1 < prec.
Hypothesis Hemax : prec < emax.

Local Abbreviation fexp := (SpecFloat.fexp prec emax).
Local Abbreviation emin := (SpecFloat.emin prec emax).

Lemma fexp_mono a b : a <= b -> fexp a <= fexp b.
Proof. unfold SpecFloat.fexp. lia. Qed.

Lemma fexp_ge_emin a : emin <= fexp a.
Proof. unfold SpecFloat.fexp. lia. Qed.

Lemma emin_lt : emin < 1 - prec.
Proof. unfold SpecFloat.emin. lia. Qed.

Lemma shr_fexp_spec m e l :
  0 <= m ->
  let k := Z.max 0 (fexp (Zdigits2 m + e) - e) in
  snd (shr_fexp prec emax m e l) = e + k
  /\ shr_m (fst (shr_fexp prec emax m e l)) = m / 2 ^ k
  /\ (l = loc_Exact -> m mod 2 ^ k = 0 ->
      loc_of_shr_record (fst (shr_fexp prec emax m e l)) = loc_Exact).
Proof. intros Hm. unfold shr_fexp. now apply shr_spec. Qed.

(** The two shifts of [binary_round_aux], with the rounding between
    them. *)
Lemma binary_round_aux_spec s m e l :
  0 <= m ->
  let k1 := Z.max 0 (fexp (Zdigits2 m + e) - e) in
  exists m2,
    (m2 = m / 2 ^ k1 \/ (m2 = m / 2 ^ k1 + 1 /\ ~ (l = loc_Exact /\ m mod 2 ^ k1 = 0)))
    /\ binary_round_aux prec emax s m e l
       = IEEE.pack prec emax s
           (m2 / 2 ^ Z.max 0 (fexp (Zdigits2 m2 + (e + k1)) - (e + k1)))
           (e + k1 + Z.max 0 (fexp (Zdigits2 m2 + (e + k1)) - (e + k1))).
Proof.
  intros Hm k1.
  destruct (shr_fexp_spec m e l Hm) as (He1 & Hm1 & Hx1). fold k1 in He1, Hm1, Hx1.
  unfold binary_round_aux.
  destruct (shr_fexp prec emax m e l) as [mrs1 e1]. cbn [fst snd] in *. subst e1.
  set (m2 := round_nearest_even (shr_m mrs1) (loc_of_shr_record mrs1)).
  assert (Hk1 : 0 < 2 ^ k1) by (apply Z.pow_pos_nonneg; lia).
  assert (Hm1' : 0 <= m / 2 ^ k1) by (apply Z.div_pos; lia).
  assert (H2 : m2 = m / 2 ^ k1 \/ (m2 = m / 2 ^ k1 + 1 /\ ~ (l = loc_Exact /\ m mod 2 ^ k1 = 0))).
  { subst m2. destruct (round_nearest_even_cases (shr_m mrs1) (loc_of_shr_record mrs1))
      as [E|[E Hl]]; rewrite E, Hm1; [now left|right].
    split; [reflexivity|]. intros [HE Hmod]. apply Hl. now apply Hx1. }
  assert (Hm2 : 0 <= m2) by (destruct H2 as [->|[-> _]]; lia).
  exists m2. split; [exact H2|].
  destruct (shr_fexp_spec m2 (e + k1) loc_Exact Hm2) as (He2 & Hm2' & _).
  destruct (shr_fexp prec emax m2 (e + k1) loc_Exact) as [mrs2 e2]. cbn [fst snd] in *.
  subst e2. rewrite Hm2'. reflexivity.
Qed.

Lemma pack_finite s m e s' mf ef :
  IEEE.pack prec emax s m e = S754_finite s' mf ef -> s' = s /\ m = Zpos mf /\ ef = e.
Proof.
  unfold IEEE.pack. destruct m as [|p|p]; try discriminate.
  destruct (e <=? emax - prec); try discriminate.
  intros E. inversion E. auto.
Qed.

Lemma pack_valid s m e :
  (0 < m -> fexp (Zdigits2 m + e) = e) -> valid_binary prec emax (IEEE.pack prec emax s m e) = true.
Proof.
  intros H. unfold IEEE.pack. destruct m as [|p|p]; try reflexivity.
  destruct (Z.leb_spec e (emax - prec)) as [Hle|Hgt]; [|reflexivity].
  simpl. unfold bounded, canonical_mantissa.
  apply andb_true_iff. split; [apply Z.eqb_eq; apply H; lia|apply Z.leb_le; exact Hle].
Qed.

Lemma binary_round_aux_valid s m e l :
  0 <= m -> e <= fexp (Zdigits2 m + e) ->
  valid_binary prec emax (binary_round_aux prec emax s m e l) = true.
Proof.
  intros Hm Hpre.
  destruct (binary_round_aux_spec s m e l Hm) as (m2 & H2 & ->).
  set (k1 := Z.max 0 (fexp (Zdigits2 m + e) - e)) in *.
  assert (Ek1 : e + k1 = fexp (Zdigits2 m + e)) by lia.
  set (e1 := e + k1) in *.
  assert (Hk1 : 0 < 2 ^ k1) by (apply Z.pow_pos_nonneg; lia).
  assert (Hm1 : 0 <= m / 2 ^ k1) by (apply Z.div_pos; lia).
  assert (Hm2 : 0 <= m2 /\ m / 2 ^ k1 <= m2) by (destruct H2 as [->|[-> _]]; lia).
  assert (HA : 0 < m2 -> e1 <= fexp (Zdigits2 m2 + e1)).
  { intros Hpos. destruct (Z_lt_le_dec m (2 ^ k1)) as [Hsmall|Hbig].
    - (* the first shift leaves nothing: the exponent is emin *)
      assert (Hd : Zdigits2 m <= k1) by (apply Zdigits2_lt_pow; lia).
      assert (e1 = emin) by (unfold SpecFloat.fexp in Ek1; lia).
      rewrite H. apply fexp_ge_emin.
    - rewrite Ek1 at 1. apply fexp_mono.
      assert (Zdigits2 (m / 2 ^ k1) = Zdigits2 m - k1) by (apply Zdigits2_div_pow2; lia).
      assert (Zdigits2 (m / 2 ^ k1) <= Zdigits2 m2) by (apply Zdigits2_le; lia).
      lia. }
  apply pack_valid. intros Hpos.
  set (k2 := Z.max 0 (fexp (Zdigits2 m2 + e1) - e1)) in *.
  assert (Hk2 : 0 < 2 ^ k2) by (apply Z.pow_pos_nonneg; lia).
  assert (Hm2pos : 0 < m2).
  { destruct (Z.eq_dec m2 0) as [E|]; [|lia]. rewrite E, Z.div_0_l in Hpos; lia. }
  assert (Hbig : 2 ^ k2 <= m2).
  { destruct (Z_lt_le_dec m2 (2 ^ k2)); [|assumption].
    rewrite Z.div_small in Hpos; lia. }
  rewrite Zdigits2_div_pow2 by lia.
  specialize (HA Hm2pos).
  replace (Zdigits2 m2 - k2 + (e1 + k2)) with (Zdigits2 m2 + e1) by lia. lia.
Qed.

Lemma binary_round_aux_exact s m e :
  0 < m ->
  let k := Z.max 0 (fexp (Zdigits2 m + e) - e) in
  m mod 2 ^ k = 0 ->
  binary_round_aux prec emax s m e loc_Exact = IEEE.pack prec emax s (m / 2 ^ k) (e + k).
Proof.
  intros Hm k Hmod.
  destruct (binary_round_aux_spec s m e loc_Exact) as (m2 & H2 & ->); [lia|].
  fold k in H2 |- *.
  assert (Hk : 0 < 2 ^ k) by (apply Z.pow_pos_nonneg; lia).
  destruct H2 as [->|[_ Hn]]; [|exfalso; apply Hn; now split].
  assert (Hbig : 2 ^ k <= m).
  { destruct (Z_lt_le_dec m (2 ^ k)) as [Hs|]; [|assumption].
    rewrite Z.mod_small in Hmod; lia. }
  rewrite Zdigits2_div_pow2 by lia.
  replace (Zdigits2 m - k + (e + k)) with (Zdigits2 m + e) by lia.
  replace (Z.max 0 (fexp (Zdigits2 m + e) - (e + k))) with 0 by lia.
  rewrite Z.pow_0_r, Z.div_1_r, Z.add_0_r. reflexivity.
Qed.

Lemma iter_xO m d : Zpos (Pos.iter xO m d) = Zpos m * 2 ^ Zpos d.
Proof.
  revert m. induction d using Pos.peano_ind; intros m.
  - simpl. lia.
  - rewrite Pos.iter_succ, Pos2Z.inj_xO, IHd, Pos2Z.inj_succ, Z.pow_succ_r by lia. lia.
Qed.

Lemma shl_align_spec m e e' :
  shl_align m e e'
  = if e' <? e then (Z.to_pos (Zpos m * 2 ^ (e - e')), e') else (m, e).
Proof.
  unfold shl_align. destruct (Z.ltb_spec e' e) as [Hlt|Hge].
  - destruct (e' - e) as [|d|d] eqn:E; try lia.
    f_equal. replace (e - e') with (Zpos d) by lia.
    rewrite <- iter_xO. reflexivity.
  - destruct (e' - e) as [|d|d] eqn:E; try lia; reflexivity.
Qed.

Lemma binary_round_eq s m e :
  let e' := fexp (Zdigits2 (Zpos m) + e) in
  binary_round prec emax s m e
  = if e' <? e
    then binary_round_aux prec emax s (Zpos m * 2 ^ (e - e')) e' loc_Exact
    else binary_round_aux prec emax s (Zpos m) e loc_Exact.
Proof.
  intros e'. unfold binary_round. change (Zpos (digits2_pos m)) with (Zdigits2 (Zpos m)).
  fold e'. rewrite shl_align_spec. destruct (Z.ltb_spec e' e); [|reflexivity].
  rewrite Z2Pos.id; [reflexivity|].
  apply Z.mul_pos_pos; [lia|apply Z.pow_pos_nonneg; lia].
Qed.

Lemma binary_round_exact s m e :
  let e' := fexp (Zdigits2 (Zpos m) + e) in
  e' <= e ->
  binary_round prec emax s m e = IEEE.pack prec emax s (Zpos m * 2 ^ (e - e')) e'.
Proof.
  intros e' Hle. rewrite binary_round_eq. fold e'.
  destruct (Z.ltb_spec e' e) as [Hlt|Hge].
  - assert (Hp : 0 < 2 ^ (e - e')) by (apply Z.pow_pos_nonneg; lia).
    rewrite binary_round_aux_exact.
    + rewrite Zdigits2_mul_pow2 by lia.
      replace (Zdigits2 (Zpos m) + (e - e') + e') with (Zdigits2 (Zpos m) + e) by lia.
      fold e'. replace (Z.max 0 (e' - e')) with 0 by lia.
      now rewrite Z.pow_0_r, Z.div_1_r, Z.add_0_r.
    + lia.
    + rewrite Zdigits2_mul_pow2 by lia.
      replace (Zdigits2 (Zpos m) + (e - e') + e') with (Zdigits2 (Zpos m) + e) by lia.
      fold e'. replace (Z.max 0 (e' - e')) with 0 by lia.
      now rewrite Z.pow_0_r, Z.mod_1_r.
  - assert (e' = e) by lia.
    rewrite binary_round_aux_exact.
    + fold e'. replace (Z.max 0 (e' - e)) with 0 by lia.
      rewrite H, Z.sub_diag, Z.pow_0_r, Z.div_1_r, Z.add_0_r, Z.mul_1_r. reflexivity.
    + lia.
    + fold e'. replace (Z.max 0 (e' - e)) with 0 by lia.
      now rewrite Z.pow_0_r, Z.mod_1_r.
Qed.

Lemma binary_round_valid s m e :
  valid_binary prec emax (binary_round prec emax s m e) = true.
Proof.
  rewrite binary_round_eq. set (e' := fexp (Zdigits2 (Zpos m) + e)).
  destruct (Z.ltb_spec e' e) as [Hlt|Hge].
  - assert (Hp : 0 < 2 ^ (e - e')) by (apply Z.pow_pos_nonneg; lia).
    apply binary_round_aux_valid; [lia|].
    rewrite Zdigits2_mul_pow2 by lia.
    replace (Zdigits2 (Zpos m) + (e - e') + e') with (Zdigits2 (Zpos m) + e) by lia.
    fold e'. lia.
  - apply binary_round_aux_valid; [lia|]. fold e'. lia.
Qed.

(** A finite result of [binary_round] is the number itself when its
    exponent did not grow, and is less than one unit of its last place away
    from it otherwise. *)
Lemma binary_round_bracket s m e s' mf ef :
  binary_round prec emax s m e = S754_finite s' mf ef ->
  s' = s
  /\ ((ef <= e /\ Zpos mf = Zpos m * 2 ^ (e - ef))
      \/ (e < ef /\ (Zpos mf - 1) * 2 ^ (ef - e) < Zpos m < (Zpos mf + 1) * 2 ^ (ef - e))).
Proof.
  set (e' := fexp (Zdigits2 (Zpos m) + e)).
  destruct (Z_le_gt_dec e' e) as [Hle|Hgt].
  - rewrite (binary_round_exact s m e Hle). fold e'. intros E.
    apply pack_finite in E. destruct E as (-> & E & ->). split; [reflexivity|left].
    split; [assumption|]. now rewrite <- E.
  - rewrite binary_round_eq. fold e'.
    destruct (Z.ltb_spec e' e) as [Hlt|_]; [lia|].
    destruct (binary_round_aux_spec s (Zpos m) e loc_Exact) as (m2 & H2 & ->); [lia|].
    fold e' in H2 |- *. replace (Z.max 0 (e' - e)) with (e' - e) in * by lia.
    set (k1 := e' - e) in *.
    set (k2 := Z.max 0 (fexp (Zdigits2 m2 + (e + k1)) - (e + k1))).
    intros E. apply pack_finite in E. destruct E as (-> & E & ->).
    split; [reflexivity|right]. split; [lia|].
    replace (e + k1 + k2 - e) with (k1 + k2) by lia.
    rewrite Z.pow_add_r by lia.
    assert (HA : 0 < 2 ^ k1) by (apply Z.pow_pos_nonneg; lia).
    assert (HB : 0 < 2 ^ k2) by (apply Z.pow_pos_nonneg; lia).
    pose proof (Z.div_mod (Zpos m) (2 ^ k1) ltac:(lia)) as D1.
    pose proof (Z.mod_pos_bound (Zpos m) (2 ^ k1) HA) as R1.
    pose proof (Z.div_mod m2 (2 ^ k2) ltac:(lia)) as D2.
    pose proof (Z.mod_pos_bound m2 (2 ^ k2) HB) as R2.
    rewrite E in D2.
    set (A := 2 ^ k1) in *. set (B := 2 ^ k2) in *.
    set (M1 := Zpos m / A) in *. set (r1 := Zpos m mod A) in *.
    set (r2 := m2 mod B) in *.
    destruct H2 as [Hm2|[Hm2 Hn]].
    + split; nia.
    + assert (r1 <> 0) by (intros Hr; apply Hn; split; [reflexivity|exact Hr]).
      split; nia.
Qed.

End Round.

(** ** Equality of numbers *)

Section FloatEq.

Lemma SFeqb_true_inv (a b : spec_float) :
  SFeqb a b = true ->
  (IEEE.is_zero a = true /\ IEEE.is_zero b = true) \/ (a = b /\ IEEE.is_nan a = false).
Proof.
  unfold SFeqb.
  destruct a as [sa|sa| |sa ma ea], b as [sb|sb| |sb mb eb]; simpl; try discriminate;
    try (destruct sa; discriminate); try (destruct sb; discriminate).
  - intros _. left. split; reflexivity.
  - destruct sa, sb; try discriminate; intros _; right; split; reflexivity.
  - destruct sa, sb; try discriminate;
      (destruct (Z.compare_spec ea eb) as [E|L|G]; try discriminate;
       change (Pos.compare_cont Eq ma mb) with (Pos.compare ma mb);
       destruct (Pos.compare_spec ma mb) as [Em|?|?]; try discriminate;
       intros _; right; split; [subst; reflexivity| reflexivity]).
Qed.

Lemma SFeqb_sym (a b : spec_float) : SFeqb a b = SFeqb b a.
Proof.
  unfold SFeqb.
  destruct a as [sa|sa| |sa ma ea], b as [sb|sb| |sb mb eb]; simpl; try reflexivity;
    try (destruct sa; reflexivity); try (destruct sb; reflexivity);
    try (destruct sa, sb; reflexivity).
  destruct sa, sb; try reflexivity;
    rewrite (Z.compare_antisym ea eb); destruct (ea ?= eb); simpl; try reflexivity;
    change (Pos.compare_cont Eq ma mb) with (Pos.compare ma mb);
    change (Pos.compare_cont Eq mb ma) with (Pos.compare mb ma);
    rewrite (Pos.compare_antisym mb ma); destruct (Pos.compare mb ma); reflexivity.
Qed.

Lemma SFeqb_trans (a b c : spec_float) :
  SFeqb a b = true -> SFeqb b c = true -> SFeqb a c = true.
Proof.
  intros Hab Hbc.
  destruct (SFeqb_true_inv _ _ Hab) as [[Za Zb]|[-> _]]; [|exact Hbc].
  destruct (SFeqb_true_inv _ _ Hbc) as [[_ Zc]|[<- _]].
  - destruct a, c; try discriminate; reflexivity.
  - exact Hab.
Qed.
End FloatEq.

(** ** The formats of torch within binary64 *)

Section Formats.

Lemma dprec_gt_1 dt : 1 < dprec dt.
Proof. destruct dt; reflexivity. Qed.

Lemma dprec_lt_demax dt : dprec dt < demax dt.
Proof. destruct dt; reflexivity. Qed.

Lemma dprec_le_53 dt : dprec dt <= 53.
Proof. destruct dt; simpl; lia. Qed.

Lemma demax_le_1024 dt : demax dt <= 1024.
Proof. destruct dt; simpl; lia. Qed.

Lemma demin_ge dt : emin 53 1024 <= emin (dprec dt) (demax dt).
Proof. destruct dt; unfold emin; simpl; lia. Qed.

End Formats.

(** ** Conversions that are exact *)

Section Exact.

(** What validity says of a finite number. *)
Lemma valid_finite_inv prec emax s m e :
  0 < prec ->
  valid_binary prec emax (S754_finite s m e) = true ->
  fexp prec emax (Zdigits2 (Zpos m) + e) = e
  /\ Zdigits2 (Zpos m) <= prec /\ emin prec emax <= e /\ e <= emax - prec.
Proof.
  intros Hp H. simpl in H. unfold bounded, canonical_mantissa in H.
  apply andb_true_iff in H. destruct H as [Hc Hb].
  apply Z.eqb_eq in Hc. apply Z.leb_le in Hb.
  change (Zpos (digits2_pos m)) with (Zdigits2 (Zpos m)) in Hc.
  split; [exact Hc|]. unfold fexp in Hc. lia.
Qed.

(** A number of a format is a number of every wider format, with a
    longer mantissa. *)
Lemma cast_widen P E p em s m e :
  0 < p -> p <= P -> em <= E -> emin P E <= emin p em ->
  valid_binary p em (S754_finite s m e) = true ->
  let j := e - fexp P E (Zdigits2 (Zpos m) + e) in
  0 <= j
  /\ IEEE.cast P E (S754_finite s m e)
     = S754_finite s (Z.to_pos (Zpos m * 2 ^ j)) (e - j).
Proof.
  intros Hp HP HE Hmin Hv j.
  destruct (valid_finite_inv p em s m e Hp Hv) as (Hc & Hd & Hlo & Hhi).
  assert (Hj : 0 <= j) by (subst j; unfold fexp; lia).
  split; [exact Hj|]. unfold IEEE.cast.
  rewrite binary_round_exact by (fold j; lia).
  replace (fexp P E (Zdigits2 (Zpos m) + e)) with (e - j) by (subst j; lia).
  replace (e - (e - j)) with j by lia.
  assert (Hpos : 0 < Zpos m * 2 ^ j) by (apply Z.mul_pos_pos; [lia|apply Z.pow_pos_nonneg; lia]).
  unfold IEEE.pack. destruct (Zpos m * 2 ^ j) as [|q|q] eqn:Eq; try lia.
  destruct (Z.leb_spec (e - j) (E - P)) as [_|Hgt]; [reflexivity|].
  exfalso. subst j. unfold fexp, emin in *. lia.
Qed.

(** Back from the wider format: the same number. *)
Lemma cast_narrow prec emax s m e j :
  1 < prec -> prec < emax -> 0 <= j ->
  valid_binary prec emax (S754_finite s m e) = true ->
  IEEE.cast prec emax (S754_finite s (Z.to_pos (Zpos m * 2 ^ j)) (e - j))
  = S754_finite s m e.
Proof.
  intros Hp He Hj Hv.
  destruct (valid_finite_inv prec emax s m e ltac:(lia) Hv) as (Hc & Hd & Hlo & Hhi).
  assert (H2j : 0 < 2 ^ j) by (apply Z.pow_pos_nonneg; lia).
  assert (Hpos : 0 < Zpos m * 2 ^ j) by (apply Z.mul_pos_pos; lia).
  unfold IEEE.cast. rewrite binary_round_eq.
  rewrite Z2Pos.id by exact Hpos.
  rewrite Zdigits2_mul_pow2 by lia.
  replace (Zdigits2 (Zpos m) + j + (e - j)) with (Zdigits2 (Zpos m) + e) by lia.
  rewrite Hc. destruct (Z.ltb_spec e (e - j)) as [Hlt|_]; [lia|].
  rewrite binary_round_aux_exact; rewrite ?Zdigits2_mul_pow2 by lia;
    replace (Zdigits2 (Zpos m) + j + (e - j)) with (Zdigits2 (Zpos m) + e) by lia;
    rewrite ?Hc; replace (Z.max 0 (e - (e - j))) with j by lia.
  - rewrite Z.div_mul by lia. replace (e - j + j) with e by lia.
    unfold IEEE.pack. destruct (Z.leb_spec e (emax - prec)); [reflexivity|lia].
  - exact Hpos.
  - apply Z.mod_mul. lia.
Qed.

End Exact.

(** ** Numbers that are integers *)

Section Integers.

Lemma to_Z_finite s m e z :
  IEEE.to_Z (S754_finite s m e) = Some z <->
  exists a, z = cond_Zopp s a /\ Zpos m * 2 ^ Z.max 0 e = a * 2 ^ Z.max 0 (- e).
Proof.
  unfold IEEE.to_Z. destruct e as [|p|p].
  - change (Z.max 0 0) with 0. change (Z.max 0 (- 0)) with 0. rewrite Z.pow_0_r. split.
    + intros E. inversion E. exists (Zpos m * 1). split; [reflexivity|lia].
    + intros [a [-> Ha]]. do 2 f_equal. lia.
  - replace (Z.max 0 (Zpos p)) with (Zpos p) by lia.
    replace (Z.max 0 (- Zpos p)) with 0 by lia. rewrite Z.pow_0_r. split.
    + intros E. inversion E. exists (Zpos m * 2 ^ Zpos p). split; [reflexivity|lia].
    + intros [a [-> Ha]]. do 2 f_equal. lia.
  - replace (Z.max 0 (Zneg p)) with 0 by lia.
    replace (Z.max 0 (- Zneg p)) with (Zpos p) by lia. rewrite Z.pow_0_r.
    assert (Hp : 0 < 2 ^ Zpos p) by (apply Z.pow_pos_nonneg; lia).
    destruct (Z.eqb_spec (Zpos m mod 2 ^ Zpos p) 0) as [Hmod|Hmod]; split.
    + intros E. inversion E. exists (Zpos m / 2 ^ Zpos p). split; [reflexivity|].
      pose proof (Z.div_mod (Zpos m) (2 ^ Zpos p) ltac:(lia)). lia.
    + intros [a [-> Ha]]. do 2 f_equal. rewrite Z.mul_1_r in Ha. rewrite Ha.
      now rewrite Z.div_mul by lia.
    + discriminate.
    + intros [a [_ Ha]]. exfalso. apply Hmod. rewrite Z.mul_1_r in Ha. rewrite Ha.
      apply Z.mod_mul. lia.
Qed.

Lemma option_ext {A} (x y : option A) :
  (forall z, x = Some z <-> y = Some z) -> x = y.
Proof.
  intros H. destruct x as [a|], y as [b|]; try reflexivity.
  - symmetry. now apply H.
  - symmetry. now apply H.
  - now apply H.
Qed.

(** The integer value does not depend on how mantissa and exponent share
    the powers of two. *)
Lemma to_Z_shift s m e j :
  0 <= j ->
  IEEE.to_Z (S754_finite s (Z.to_pos (Zpos m * 2 ^ j)) (e - j))
  = IEEE.to_Z (S754_finite s m e).
Proof.
  intros Hj. apply option_ext. intros z. rewrite !to_Z_finite.
  assert (H2j : 0 < 2 ^ j) by (apply Z.pow_pos_nonneg; lia).
  rewrite Z2Pos.id by (apply Z.mul_pos_pos; lia).
  set (u := Z.max 0 e). set (v := Z.max 0 (- e)).
  set (u' := Z.max 0 (e - j)). set (v' := Z.max 0 (- (e - j))).
  assert (HU : 0 < 2 ^ u) by (apply Z.pow_pos_nonneg; lia).
  assert (HV : 0 < 2 ^ v) by (apply Z.pow_pos_nonneg; lia).
  assert (HU' : 0 < 2 ^ u') by (apply Z.pow_pos_nonneg; lia).
  assert (HV' : 0 < 2 ^ v') by (apply Z.pow_pos_nonneg; lia).
  assert (Hrel : 2 ^ j * 2 ^ u' * 2 ^ v = 2 ^ u * 2 ^ v').
  { rewrite <- !Z.pow_add_r by lia. f_equal. lia. }
  split; intros [a [-> Ha]]; exists a; (split; [reflexivity|]).
  - apply (Z.mul_reg_r _ _ (2 ^ v')); [lia|].
    replace (Zpos m * 2 ^ u * 2 ^ v') with (Zpos m * (2 ^ j * 2 ^ u' * 2 ^ v)) by (rewrite Hrel; ring).
    replace (Zpos m * (2 ^ j * 2 ^ u' * 2 ^ v)) with (Zpos m * 2 ^ j * 2 ^ u' * 2 ^ v) by ring.
    rewrite Ha. ring.
  - apply (Z.mul_reg_r _ _ (2 ^ v)); [lia|].
    replace (Zpos m * 2 ^ j * 2 ^ u' * 2 ^ v) with (Zpos m * (2 ^ j * 2 ^ u' * 2 ^ v)) by ring.
    rewrite Hrel.
    replace (Zpos m * (2 ^ u * 2 ^ v')) with (Zpos m * 2 ^ u * 2 ^ v') by ring.
    rewrite Ha. ring.
Qed.

Lemma cond_Zopp_mul s a b : cond_Zopp s a * b = cond_Zopp s (a * b).
Proof. destruct s; simpl; lia. Qed.

(** The mantissa aligned to a smaller exponent [ez], against the integer
    value. *)
Lemma align_to_Z s m e ez a :
  IEEE.to_Z (S754_finite s m e) = Some a -> ez <= e ->
  cond_Zopp s (Zpos (fst (shl_align m e ez))) * 2 ^ Z.max 0 ez
  = a * 2 ^ Z.max 0 (- ez).
Proof.
  intros Ha Hez. apply to_Z_finite in Ha. destruct Ha as [a' [-> Ha]].
  rewrite shl_align_spec. rewrite !cond_Zopp_mul. f_equal.
  set (u := Z.max 0 e) in *. set (v := Z.max 0 (- e)) in *.
  set (u' := Z.max 0 ez). set (v' := Z.max 0 (- ez)).
  assert (HV : 0 < 2 ^ v) by (apply Z.pow_pos_nonneg; lia).
  destruct (Z.ltb_spec ez e) as [Hlt|Hge]; cbn [fst].
  - assert (H2 : 0 < 2 ^ (e - ez)) by (apply Z.pow_pos_nonneg; lia).
    rewrite Z2Pos.id by (apply Z.mul_pos_pos; lia).
    assert (Hrel : 2 ^ (e - ez) * 2 ^ u' * 2 ^ v = 2 ^ u * 2 ^ v').
    { rewrite <- !Z.pow_add_r by lia. f_equal. lia. }
    apply (Z.mul_reg_r _ _ (2 ^ v)); [lia|].
    replace (Zpos m * 2 ^ (e - ez) * 2 ^ u' * 2 ^ v)
      with (Zpos m * (2 ^ (e - ez) * 2 ^ u' * 2 ^ v)) by ring.
    rewrite Hrel.
    replace (Zpos m * (2 ^ u * 2 ^ v')) with (Zpos m * 2 ^ u * 2 ^ v') by ring.
    rewrite Ha. ring.
  - assert (ez = e) by lia. subst ez. exact Ha.
Qed.

End Integers.

(** ** A binary64 difference equal to 1 *)

Section UnitStep.

Lemma one64 : Py.one = S754_finite false 4503599627370496 (-52).
Proof. reflexivity. Qed.

Lemma float_eq_one x : Py.float_eq x Py.one = true -> x = Py.one.
Proof.
  intros H. destruct (SFeqb_true_inv _ _ H) as [[_ Hz]|[E _]]; [discriminate|exact E].
Qed.

(** Two integers whose binary64 difference is 1 differ by 1. *)
Lemma float_sub_one A B a b :
  IEEE.to_Z A = Some a -> IEEE.to_Z B = Some b ->
  Py.float_eq (Py.float_sub A B) Py.one = true -> a = b + 1.
Proof.
  intros HA HB H. apply float_eq_one in H. rewrite one64 in H. unfold Py.float_sub in H.
  destruct A as [sa|sa| |sa ma ea]; try discriminate;
    destruct B as [sb|sb| |sb mb eb]; try discriminate.
  - destruct sa, sb; discriminate.
  - simpl in H. inversion H; subst. destruct sb; [|discriminate].
    vm_compute in HB. simpl in HA. injection HA as <-. injection HB as <-. reflexivity.
  - simpl in H. inversion H; subst. vm_compute in HA. simpl in HB.
    injection HA as <-. injection HB as <-. reflexivity.
  - cbn [SFsub] in H. set (ez := Z.min ea eb) in *.
    pose proof (align_to_Z sa ma ea ez a HA ltac:(lia)) as Ea.
    pose proof (align_to_Z sb mb eb ez b HB ltac:(lia)) as Eb.
    set (MA := cond_Zopp sa (Zpos (fst (shl_align ma ea ez)))) in *.
    set (MB := cond_Zopp sb (Zpos (fst (shl_align mb eb ez)))) in *.
    assert (EM : (MA - MB) * 2 ^ Z.max 0 ez = (a - b) * 2 ^ Z.max 0 (- ez)) by lia.
    destruct (MA - MB) as [|p|p]; cbn [binary_normalize] in H; try discriminate.
    + apply binary_round_bracket in H; [|lia].
      destruct H as [_ [[Hle E]|[Hlt [Hlo Hhi]]]].
      * destruct (Z_le_gt_dec 0 ez) as [Hpos|Hneg].
        -- replace (Z.max 0 ez) with ez in EM by lia.
           replace (Z.max 0 (- ez)) with 0 in EM by lia.
           replace (ez - -52) with (ez + 52) in E by lia.
           rewrite Z.pow_add_r in E by lia.
           assert (0 < 2 ^ ez) by (apply Z.pow_pos_nonneg; lia).
           change (2 ^ 52) with 4503599627370496 in E. lia.
        -- replace (Z.max 0 ez) with 0 in EM by lia.
           replace (Z.max 0 (- ez)) with (- ez) in EM by lia.
           assert (Hrel : 2 ^ (- ez) * 2 ^ (ez - -52) = 4503599627370496).
           { rewrite <- Z.pow_add_r by lia. replace (- ez + (ez - -52)) with 52 by lia.
             reflexivity. }
           assert (0 < 2 ^ (- ez)) by (apply Z.pow_pos_nonneg; lia).
           assert (0 < 2 ^ (ez - -52)) by (apply Z.pow_pos_nonneg; lia).
           rewrite Z.pow_0_r, Z.mul_1_r in EM. rewrite EM in E.
           assert ((a - b) * 4503599627370496 = 4503599627370496) by nia. lia.
      * replace (Z.max 0 ez) with 0 in EM by lia.
        replace (Z.max 0 (- ez)) with (- ez) in EM by lia.
        rewrite Z.pow_0_r, Z.mul_1_r in EM.
        assert (Hrel : 2 ^ (- ez) = 4503599627370496 * 2 ^ (-52 - ez)).
        { change 4503599627370496 with (2 ^ 52). rewrite <- Z.pow_add_r by lia.
          f_equal. lia. }
        assert (0 < 2 ^ (-52 - ez)) by (apply Z.pow_pos_nonneg; lia).
        rewrite EM, Hrel in Hlo, Hhi.
        set (K := 2 ^ (-52 - ez)) in *.
        assert (a - b < 2) by nia. assert (0 < a - b) by nia. lia.
    + apply binary_round_bracket in H; [|lia]. destruct H as [Hs _]. discriminate.
Qed.

End UnitStep.

(** ** Division: the quotient handed to the rounding *)

Section Division.

Variables prec emax : Z.
Hypothesis Hprec : 1 < prec.
Hypothesis Hemax : prec < emax.

(** The quotient [SFdiv] hands to the rounding, its exponent, and the
    remainder that decides whether it is exact. *)
Lemma SFdiv_finite sx mx ex sy my ey :
  let e' := Z.min (fexp prec emax (Zdigits2 (Zpos mx) + ex - (Zdigits2 (Zpos my) + ey)))
                  (ex - ey) in
  let s := ex - ey - e' in
  SFdiv prec emax (S754_finite sx mx ex) (S754_finite sy my ey)
  = binary_round_aux prec emax (xorb sx sy) (Zpos mx * 2 ^ s / Zpos my) e'
      (new_location (Zpos my) ((Zpos mx * 2 ^ s) mod Zpos my)).
Proof.
  intros e' s. unfold SFdiv, SFdiv_core_binary. fold e'. fold s.
  assert (Hs : 0 <= s) by (subst s e'; lia).
  assert (Hm : forall s0, 0 <= s0 ->
               match s0 with
               | 0 => Zpos mx
               | Zpos _ => Z.shiftl (Zpos mx) s0
               | Zneg _ => 0
               end = Zpos mx * 2 ^ s0).
  { intros [|p|p] H0; [now rewrite Z.pow_0_r, Z.mul_1_r| |lia].
    now rewrite Z.shiftl_mul_pow2 by lia. }
  rewrite (Hm s Hs). unfold Z.div, Z.modulo.
  destruct (Z.div_eucl (Zpos mx * 2 ^ s) (Zpos my)) as [q r]. reflexivity.
Qed.

Lemma div_digits m1 m2 s :
  0 < m1 -> 0 < m2 -> 0 <= s ->
  Zdigits2 m1 - Zdigits2 m2 + s <= Zdigits2 (m1 * 2 ^ s / m2).
Proof.
  intros H1 H2 Hs.
  destruct (Zdigits2_bounds m1 H1) as [L1 _]. destruct (Zdigits2_bounds m2 H2) as [_ U2].
  pose proof (Zdigits2_pos m1 H1). pose proof (Zdigits2_pos m2 H2).
  set (d1 := Zdigits2 m1) in *. set (d2 := Zdigits2 m2) in *.
  destruct (Z_le_gt_dec (d1 - d2 + s) 0) as [Hle|Hgt].
  - pose proof (Zdigits2_nonneg (m1 * 2 ^ s / m2)). lia.
  - apply Zdigits2_ge_pow; [lia|].
    apply Z.div_le_lower_bound; [lia|].
    assert (Hp : 2 ^ (d1 - 1) * 2 ^ s = 2 ^ d2 * 2 ^ (d1 - d2 + s - 1)).
    { rewrite <- !Z.pow_add_r by lia. f_equal. lia. }
    assert (0 < 2 ^ s) by (apply Z.pow_pos_nonneg; lia).
    assert (0 < 2 ^ (d1 - d2 + s - 1)) by (apply Z.pow_pos_nonneg; lia).
    nia.
Qed.

Lemma SFdiv_valid x y :
  valid_binary prec emax (SFdiv prec emax x y) = true.
Proof.
  destruct x as [sx|sx| |sx mx ex], y as [sy|sy| |sy my ey]; try reflexivity.
  rewrite SFdiv_finite.
  set (e' := Z.min _ _). set (s := ex - ey - e').
  assert (Hs : 0 <= s) by (subst s e'; lia).
  assert (H2s : 0 < 2 ^ s) by (apply Z.pow_pos_nonneg; lia).
  apply binary_round_aux_valid; try assumption.
  - apply Z.div_pos; lia.
  - pose proof (div_digits (Zpos mx) (Zpos my) s ltac:(lia) ltac:(lia) Hs) as Hd.
    apply Z.le_trans with (fexp prec emax (Zdigits2 (Zpos mx) + ex - (Zdigits2 (Zpos my) + ey))).
    + subst e'. lia.
    + apply fexp_mono. subst s. lia.
Qed.

End Division.

(** ** The order of numbers *)

Section Order.

Lemma SFcompare_antisym x y :
  SFcompare y x = option_map CompOpp (SFcompare x y).
Proof.
  destruct x as [sx|sx| |sx mx ex], y as [sy|sy| |sy my ey]; simpl; try reflexivity;
    try (destruct sx; reflexivity); try (destruct sy; reflexivity);
    try (destruct sx, sy; reflexivity).
  change (Pos.compare_cont Eq mx my) with (Pos.compare mx my).
  change (Pos.compare_cont Eq my mx) with (Pos.compare my mx).
  rewrite (Z.compare_antisym ex ey), (Pos.compare_antisym mx my).
  destruct sx, sy; try reflexivity;
    destruct (ex ?= ey); simpl; try reflexivity;
    destruct (Pos.compare mx my); reflexivity.
Qed.

Lemma SFleb_refl x : IEEE.is_nan x = false -> SFleb x x = true.
Proof.
  unfold SFleb. destruct x as [s|s| |s m e]; try discriminate; intros _; simpl;
    try reflexivity; try (destruct s; reflexivity).
  rewrite Z.compare_refl. change (Pos.compare_cont Eq m m) with (Pos.compare m m).
  rewrite Pos.compare_refl. destruct s; reflexivity.
Qed.

Lemma SFleb_not_nan x y : SFleb x y = true -> IEEE.is_nan x = false /\ IEEE.is_nan y = false.
Proof.
  unfold SFleb. destruct x, y; simpl; try discriminate; auto.
Qed.

Lemma SFltb_leb x y : SFltb x y = true -> SFleb x y = true.
Proof. unfold SFltb, SFleb. destruct (SFcompare x y) as [[]|]; auto. Qed.

Lemma SFcompare_none x y :
  SFcompare x y = None -> IEEE.is_nan x = true \/ IEEE.is_nan y = true.
Proof.
  destruct x as [sx|sx| |sx mx ex], y as [sy|sy| |sy my ey]; simpl; auto;
    try discriminate; try (destruct sx; discriminate); try (destruct sy; discriminate);
    destruct sx, sy; discriminate.
Qed.

Lemma SFleb_total x y :
  IEEE.is_nan x = false -> IEEE.is_nan y = false ->
  SFltb y x = false -> SFleb x y = true.
Proof.
  intros Hx Hy. unfold SFltb, SFleb. rewrite (SFcompare_antisym x y).
  destruct (SFcompare x y) as [[]|] eqn:E; simpl; try discriminate; auto.
  destruct (SFcompare_none x y E); congruence.
Qed.

Lemma SFleb_antisym x y :
  SFleb x y = true -> SFleb y x = true -> SFeqb x y = true.
Proof.
  unfold SFleb, SFeqb. rewrite (SFcompare_antisym x y).
  destruct (SFcompare x y) as [[]|]; simpl; auto; discriminate.
Qed.

Lemma SFleb_ltb_false x y : SFleb x y = true -> SFltb y x = false.
Proof.
  unfold SFleb, SFltb. rewrite (SFcompare_antisym x y).
  destruct (SFcompare x y) as [[]|]; simpl; auto; discriminate.
Qed.

Ltac order_cases :=
  repeat match goal with
  | |- context [Z.compare ?a ?b] => destruct (Z.compare_spec a b)
  | |- context [Pos.compare ?a ?b] => destruct (Pos.compare_spec a b)
  | H : context [Z.compare ?a ?b] |- _ => destruct (Z.compare_spec a b)
  | H : context [Pos.compare ?a ?b] |- _ => destruct (Pos.compare_spec a b)
  end.

Lemma SFleb_trans x y z : SFleb x y = true -> SFleb y z = true -> SFleb x z = true.
Proof.
  unfold SFleb.
  destruct x as [sx|sx| |sx mx ex], y as [sy|sy| |sy my ey], z as [sz|sz| |sz mz ez];
    simpl; try discriminate; try reflexivity;
    try (destruct sx; simpl; try discriminate; try reflexivity; fail);
    try (destruct sx, sy; simpl; try discriminate; try reflexivity; fail);
    try (destruct sx, sz; simpl; try discriminate; try reflexivity; fail);
    try (destruct sy, sz; simpl; try discriminate; try reflexivity; fail);
    try (destruct sx, sy, sz; simpl; try discriminate; try reflexivity; fail).
  all: change (Pos.compare_cont Eq) with Pos.compare.
  all: destruct sx, sy, sz; simpl; try discriminate; try reflexivity.
  all: intros H1 H2; order_cases; simpl in *; try discriminate; try reflexivity; try lia.
Qed.

End Order.

(** ** The reduction of [torch.max] *)

Section Maximum.

Import torch.

Lemma fold_max2_nan l : fold_left max2 l S754_nan = S754_nan.
Proof. induction l; simpl; auto. Qed.

Lemma max2_spec a b :
  IEEE.is_nan (max2 a b) = false ->
  (max2 a b = a \/ max2 a b = b)
  /\ SFleb a (max2 a b) = true /\ SFleb b (max2 a b) = true.
Proof.
  unfold max2. destruct (IEEE.is_nan a) eqn:Na; [intros H; congruence|].
  destruct (SFltb b a) eqn:Hlt; intros Hn.
  - repeat split; [now left|now apply SFleb_refl|now apply SFltb_leb].
  - repeat split; [now right| |now apply SFleb_refl].
    now apply SFleb_total.
Qed.

(** What [torch.max] returns, when it is not NaN: an element that no
    element exceeds. *)
Lemma fold_max2_spec l : forall a,
  IEEE.is_nan (fold_left max2 l a) = false ->
  In (fold_left max2 l a) (a :: l)
  /\ forall y, In y (a :: l) -> SFleb y (fold_left max2 l a) = true.
Proof.
  induction l as [|x l IH]; intros a Hn; simpl in *.
  - split; [now left|]. intros y [<-|[]]. now apply SFleb_refl.
  - destruct (IH (max2 a x) Hn) as [Hin Hall].
    assert (Hm : IEEE.is_nan (max2 a x) = false).
    { destruct (IEEE.is_nan (max2 a x)) eqn:E; [|reflexivity].
      destruct (max2 a x); try discriminate. now rewrite fold_max2_nan in Hn. }
    destruct (max2_spec a x Hm) as (Hc & Ha & Hx).
    split.
    + destruct Hin as [Hin|Hin]; [|right; now right].
      rewrite <- Hin. destruct Hc as [->| ->]; [now left|right; now left].
    + intros y [<-|[<-|Hy]].
      * eapply SFleb_trans; [exact Ha|]. apply Hall. now left.
      * eapply SFleb_trans; [exact Hx|]. apply Hall. now left.
      * apply Hall. now right.
Qed.

(** The maximum of elements none of which exceeds [top], one of which is
    [top]. *)
Lemma fold_max2_top top l : forall a,
  IEEE.is_zero top = false ->
  (forall y, In y (a :: l) -> SFleb y top = true) ->
  In top (a :: l) ->
  fold_left max2 l a = top.
Proof.
  intros a Hz. revert a.
  assert (Heq : forall x, SFleb x top = true -> SFleb top x = true -> x = top).
  { intros x H1 H2. pose proof (SFleb_antisym x top H1 H2) as E.
    destruct (SFeqb_true_inv _ _ E) as [[_ Z]|[-> _]]; [congruence|reflexivity]. }
  induction l as [|x l IH]; intros a Hall Hin; simpl.
  - destruct Hin as [->|[]]. reflexivity.
  - assert (Ha : SFleb a top = true) by (apply Hall; now left).
    assert (Hx : SFleb x top = true) by (apply Hall; right; now left).
    destruct (SFleb_not_nan _ _ Ha) as [Na Nt]. destruct (SFleb_not_nan _ _ Hx) as [Nx _].
    apply IH.
    + intros y [<-|Hy]; [|apply Hall; right; now right].
      unfold max2. rewrite Na. destruct (SFltb x a); assumption.
    + destruct Hin as [->|[->|Hin]].
      * left. unfold max2. rewrite Nt. destruct (SFltb x top) eqn:E; [reflexivity|].
        apply Heq; [assumption|]. now apply SFleb_total.
      * left. unfold max2. rewrite Na.
        now rewrite (SFleb_ltb_false a top Ha).
      * right. exact Hin.
Qed.

End Maximum.

(** ** Quotients that are at most 1 *)

Section Quotient.

Variables prec emax : Z.
Hypothesis Hprec : 1 < prec.
Hypothesis Hemax : prec < emax.

Lemma SFabs_round_aux s m e l :
  SFabs (binary_round_aux prec emax s m e l) = binary_round_aux prec emax false m e l.
Proof.
  unfold binary_round_aux.
  destruct (shr_fexp prec emax m e l) as [mrs1 e1].
  destruct (shr_fexp prec emax _ e1 loc_Exact) as [mrs2 e2].
  destruct (shr_m mrs2); try reflexivity.
  destruct (e2 <=? emax - prec); reflexivity.
Qed.

Lemma SFabs_div x y :
  SFabs (SFdiv prec emax x y) = SFdiv prec emax (SFabs x) (SFabs y).
Proof.
  destruct x as [sx|sx| |sx mx ex], y as [sy|sy| |sy my ey]; try reflexivity.
  unfold SFabs at 2 3. unfold SFdiv.
  destruct (SFdiv_core_binary prec emax (Zpos mx) ex (Zpos my) ey) as [[mz ez] lz].
  apply SFabs_round_aux.
Qed.

Lemma fexp_1 : fexp prec emax 1 = 1 - prec.
Proof. unfold fexp, emin. lia. Qed.

Lemma one_eq :
  IEEE.of_Z prec emax 1 = S754_finite false (Z.to_pos (2 ^ (prec - 1))) (1 - prec).
Proof.
  unfold IEEE.of_Z, binary_normalize.
  rewrite binary_round_exact; change (Zdigits2 1 + 0) with 1; rewrite fexp_1; [|lia].
  replace (0 - (1 - prec)) with (prec - 1) by lia.
  assert (0 < 2 ^ (prec - 1)) by (apply Z.pow_pos_nonneg; lia).
  unfold IEEE.pack. rewrite Z.mul_1_l.
  destruct (2 ^ (prec - 1)) as [|p|p] eqn:E; try lia.
  destruct (Z.leb_spec (1 - prec) (emax - prec)); [reflexivity|lia].
Qed.

Lemma new_location_0 n : new_location n 0 = loc_Exact.
Proof. unfold new_location. destruct (Z.even n); reflexivity. Qed.

(** A finite number divided by itself is 1. *)
Lemma div_self s m e :
  SFdiv prec emax (S754_finite s m e) (S754_finite s m e) = IEEE.of_Z prec emax 1.
Proof.
  rewrite SFdiv_finite, one_eq.
  replace (Zdigits2 (Zpos m) + e - (Zdigits2 (Zpos m) + e)) with 0 by lia.
  replace (e - e) with 0 by lia.
  assert (E0 : fexp prec emax 0 = - prec) by (unfold fexp, emin; lia).
  rewrite E0. replace (Z.min (- prec) 0) with (- prec) by lia.
  replace (0 - - prec) with prec by lia.
  assert (Hp : 0 < 2 ^ prec) by (apply Z.pow_pos_nonneg; lia).
  rewrite Z.mul_comm, Z.div_mul, Z.mod_mul, new_location_0 by lia.
  rewrite xorb_nilpotent.
  assert (Ek : Z.max 0 (fexp prec emax (Zdigits2 (2 ^ prec) + - prec) - - prec) = 1).
  { rewrite Zdigits2_pow2 by lia. replace (prec + 1 + - prec) with 1 by lia.
    rewrite fexp_1. lia. }
  assert (E2 : 2 ^ prec = 2 * 2 ^ (prec - 1)).
  { rewrite <- Z.pow_succ_r by lia. f_equal. lia. }
  rewrite binary_round_aux_exact; rewrite ?Ek; try lia.
  - rewrite Z.pow_1_r. rewrite E2 at 1. rewrite Z.mul_comm, Z.div_mul by lia.
    replace (- prec + 1) with (1 - prec) by lia.
    assert (0 < 2 ^ (prec - 1)) by (apply Z.pow_pos_nonneg; lia).
    unfold IEEE.pack. destruct (2 ^ (prec - 1)) as [|p|p] eqn:E; try lia.
    destruct (Z.leb_spec (1 - prec) (emax - prec)); [reflexivity|lia].
  - rewrite Z.pow_1_r, E2, Z.mul_comm. apply Z.mod_mul. lia.
Qed.

(** The order of two positive numbers of the format, on their values. *)
Lemma SFleb_finite_value m1 e1 m2 e2 :
  valid_binary prec emax (S754_finite false m1 e1) = true ->
  valid_binary prec emax (S754_finite false m2 e2) = true ->
  SFleb (S754_finite false m1 e1) (S754_finite false m2 e2) = true ->
  e1 <= e2 /\ Zpos m1 <= Zpos m2 * 2 ^ (e2 - e1).
Proof.
  intros V1 V2 H.
  destruct (valid_finite_inv prec emax false m1 e1 ltac:(lia) V1) as (C1 & D1 & L1 & _).
  destruct (valid_finite_inv prec emax false m2 e2 ltac:(lia) V2) as (C2 & D2 & L2 & _).
  unfold SFleb in H. simpl in H.
  change (Pos.compare_cont Eq m1 m2) with (Pos.compare m1 m2) in H.
  destruct (Z.compare_spec e1 e2) as [E|Hlt|Hgt]; try discriminate.
  - subst e2. rewrite Z.sub_diag, Z.pow_0_r, Z.mul_1_r. split; [lia|].
    destruct (Pos.compare_spec m1 m2); try discriminate; lia.
  - split; [lia|].
    assert (Zdigits2 (Zpos m2) = prec) by (unfold fexp in C2; lia).
    destruct (Zdigits2_bounds (Zpos m1) ltac:(lia)) as [_ U1].
    destruct (Zdigits2_bounds (Zpos m2) ltac:(lia)) as [Lo2 _].
    rewrite H0 in Lo2.
    assert (2 ^ Zdigits2 (Zpos m1) <= 2 ^ prec) by (apply Z.pow_le_mono_r; lia).
    assert (2 ^ 1 <= 2 ^ (e2 - e1)) by (apply Z.pow_le_mono_r; lia).
    assert (2 ^ prec = 2 ^ (prec - 1) * 2 ^ 1).
    { rewrite <- Z.pow_add_r by lia. f_equal. lia. }
    assert (0 < 2 ^ (prec - 1)) by (apply Z.pow_pos_nonneg; lia).
    nia.
Qed.

(** A positive number divided by one that is not smaller is at most 1. *)
Lemma div_le_one m1 e1 m2 e2 :
  valid_binary prec emax (S754_finite false m1 e1) = true ->
  valid_binary prec emax (S754_finite false m2 e2) = true ->
  SFleb (S754_finite false m1 e1) (S754_finite false m2 e2) = true ->
  SFleb (SFdiv prec emax (S754_finite false m1 e1) (S754_finite false m2 e2))
        (IEEE.of_Z prec emax 1) = true.
Proof.
  intros V1 V2 Hle.
  destruct (SFleb_finite_value m1 e1 m2 e2 V1 V2 Hle) as [He Hm].
  pose proof (SFdiv_valid prec emax Hprec (S754_finite false m1 e1) (S754_finite false m2 e2))
    as Hvalid.
  rewrite SFdiv_finite in *. rewrite one_eq.
  set (e' := Z.min (fexp prec emax (Zdigits2 (Zpos m1) + e1 - (Zdigits2 (Zpos m2) + e2)))
                   (e1 - e2)) in *.
  set (s := e1 - e2 - e') in *.
  assert (Hs : 0 <= s) by (subst s e'; lia).
  assert (He' : e' <= 0) by (subst e'; lia).
  assert (H2s : 0 < 2 ^ s) by (apply Z.pow_pos_nonneg; lia).
  set (P := 2 ^ (- e')).
  assert (HP : 0 < P) by (apply Z.pow_pos_nonneg; lia).
  assert (Hnum : Zpos m1 * 2 ^ s <= Zpos m2 * P).
  { assert (E : 2 ^ (e2 - e1) * 2 ^ s = P).
    { unfold P. rewrite <- Z.pow_add_r by lia. f_equal. subst s. lia. }
    rewrite <- E. nia. }
  set (q := Zpos m1 * 2 ^ s / Zpos m2) in *.
  set (r := (Zpos m1 * 2 ^ s) mod Zpos m2) in *.
  pose proof (Z.div_mod (Zpos m1 * 2 ^ s) (Zpos m2) ltac:(lia)) as Hdm.
  pose proof (Z.mod_pos_bound (Zpos m1 * 2 ^ s) (Zpos m2) ltac:(lia)) as Hr.
  fold q r in Hdm, Hr.
  assert (Hq0 : 0 <= q) by (apply Z.div_pos; lia).
  assert (HqP : q <= P) by nia.
  assert (HqPr : q = P -> r = 0) by nia.
  destruct (binary_round_aux_spec prec emax false q e'
              (new_location (Zpos m2) r) Hq0) as (n & Hn & E).
  rewrite xorb_false_l in *. rewrite E in *. clear E.
  set (k1 := Z.max 0 (fexp prec emax (Zdigits2 q + e') - e')) in *.
  set (k2 := Z.max 0 (fexp prec emax (Zdigits2 n + (e' + k1)) - (e' + k1))) in *.
  assert (Hk1 : e' + k1 <= 0).
  { assert (Zdigits2 q <= - e' + 1).
    { apply Zdigits2_lt_pow; [lia|]. split; [lia|].
      replace (- e' + 1) with (Z.succ (- e')) by lia. rewrite Z.pow_succ_r by lia.
      fold P. lia. }
    subst k1. unfold fexp, emin. lia. }
  assert (H2k1 : 0 < 2 ^ k1) by (apply Z.pow_pos_nonneg; lia).
  assert (H2k2 : 0 < 2 ^ k2) by (apply Z.pow_pos_nonneg; lia).
  set (Q := 2 ^ (- (e' + k1))).
  assert (HQ : 0 < Q) by (apply Z.pow_pos_nonneg; lia).
  assert (EPQ : P = 2 ^ k1 * Q).
  { unfold P, Q. rewrite <- Z.pow_add_r by lia. f_equal. lia. }
  assert (HnQ : 0 <= n <= Q).
  { pose proof (Z.div_mod q (2 ^ k1) ltac:(lia)) as Hd1.
    pose proof (Z.mod_pos_bound q (2 ^ k1) H2k1) as Hr1.
    assert (0 <= q / 2 ^ k1) by (apply Z.div_pos; lia).
    destruct Hn as [->|[-> Hnot]].
    - split; [lia|]. nia.
    - split; [lia|].
      destruct (Z.eq_dec q P) as [EqP|NqP].
      + exfalso. apply Hnot. split.
        * rewrite (HqPr EqP). apply new_location_0.
        * rewrite EqP, EPQ, Z.mul_comm. apply Z.mod_mul. lia.
      + assert (q / 2 ^ k1 < Q); [|lia].
        apply Z.div_lt_upper_bound; [lia|]. rewrite <- EPQ. lia. }
  set (mf := n / 2 ^ k2) in *. set (ef := e' + k1 + k2) in *.
  pose proof (Z.div_mod n (2 ^ k2) ltac:(lia)) as Hd2.
  pose proof (Z.mod_pos_bound n (2 ^ k2) H2k2) as Hr2. fold mf in Hd2.
  assert (Hmf0 : 0 <= mf) by (apply Z.div_pos; lia).
  unfold IEEE.pack in *. destruct mf as [|p|p] eqn:Emf; try lia; [reflexivity|].
  (* the mantissa is not zero *)
  assert (Hk2 : k2 <= - (e' + k1)).
  { destruct (Z_le_gt_dec k2 (- (e' + k1))) as [|Hgt]; [assumption|exfalso].
    assert (Q * 2 <= 2 ^ k2).
    { unfold Q. replace (2 ^ (- (e' + k1)) * 2) with (2 ^ (Z.succ (- (e' + k1))))
        by (rewrite Z.pow_succ_r; lia).
      apply Z.pow_le_mono_r; lia. }
    nia. }
  assert (Hef : ef <= 0) by (subst ef; lia).
  assert (Hpe : Zpos p <= 2 ^ (- ef)).
  { assert (EQ : Q = 2 ^ k2 * 2 ^ (- ef)).
    { unfold Q. rewrite <- Z.pow_add_r by lia. f_equal. subst ef. lia. }
    assert (0 < 2 ^ (- ef)) by (apply Z.pow_pos_nonneg; lia).
    nia. }
  destruct (Z.leb_spec ef (emax - prec)) as [_|Hov]; [|lia].
  destruct (valid_finite_inv prec emax false p ef ltac:(lia) Hvalid) as (Hc & Hd & Hlo & _).
  unfold SFleb. cbn [SFcompare].
  change (Pos.compare_cont Eq p (Z.to_pos (2 ^ (prec - 1))))
    with (Pos.compare p (Z.to_pos (2 ^ (prec - 1)))).
  destruct (Z.compare_spec ef (1 - prec)) as [Eq|Hlt|Hgt]; [|reflexivity|exfalso].
  - destruct (Pos.compare_spec p (Z.to_pos (2 ^ (prec - 1)))) as [| |Hgt]; try reflexivity.
    exfalso. apply Pos2Z.pos_lt_pos in Hgt.
    rewrite Z2Pos.id in Hgt by (apply Z.pow_pos_nonneg; lia).
    rewrite Eq in Hpe. replace (- (1 - prec)) with (prec - 1) in Hpe by lia. lia.
  - assert (Zdigits2 (Zpos p) <= - ef + 1).
    { apply Zdigits2_lt_pow; [lia|]. split; [lia|].
      replace (- ef + 1) with (Z.succ (- ef)) by lia. rewrite Z.pow_succ_r by lia.
      assert (0 < 2 ^ (- ef)) by (apply Z.pow_pos_nonneg; lia). lia. }
    unfold fexp, emin in Hc. lia.
Qed.

(** No underflow to zero from an exponent of the format. *)
Lemma binary_round_aux_nonzero s m e l :
  0 < m -> emin prec emax <= e ->
  exists p ef, binary_round_aux prec emax s m e l = IEEE.pack prec emax s (Zpos p) ef.
Proof.
  intros Hm He.
  assert (Hshift : forall m e, 0 < m -> emin prec emax <= e ->
            2 ^ Z.max 0 (fexp prec emax (Zdigits2 m + e) - e) <= m).
  { clear - Hprec. intros m e Hm He. pose proof (Zdigits2_pos m Hm).
    destruct (Zdigits2_bounds m Hm) as [Lo _].
    apply Z.le_trans with (2 ^ (Zdigits2 m - 1)); [|exact Lo].
    apply Z.pow_le_mono_r; [lia|]. unfold fexp. lia. }
  destruct (binary_round_aux_spec prec emax s m e l ltac:(lia)) as (n & Hn & ->).
  set (k1 := Z.max 0 (fexp prec emax (Zdigits2 m + e) - e)) in *.
  assert (H2k1 : 0 < 2 ^ k1) by (apply Z.pow_pos_nonneg; lia).
  assert (H1 : 1 <= m / 2 ^ k1).
  { apply Z.div_le_lower_bound; [lia|]. rewrite Z.mul_1_r. now apply Hshift. }
  assert (Hn1 : 0 < n) by (destruct Hn as [->|[-> _]]; lia).
  set (k2 := Z.max 0 (fexp prec emax (Zdigits2 n + (e + k1)) - (e + k1))).
  assert (H2k2 : 0 < 2 ^ k2) by (apply Z.pow_pos_nonneg; lia).
  assert (H2 : 1 <= n / 2 ^ k2).
  { apply Z.div_le_lower_bound; [lia|]. rewrite Z.mul_1_r. apply Hshift; lia. }
  destruct (n / 2 ^ k2) as [|p|p] eqn:E; try lia.
  now exists p, (e + k1 + k2).
Qed.

(** The number of elements of a nonempty tensor, as a number of the
    format: positive, finite or infinite. *)
Lemma of_Z_pos n :
  0 < n ->
  exists p e, IEEE.of_Z prec emax n = IEEE.pack prec emax false (Zpos p) e.
Proof.
  intros Hn. destruct n as [|m|m]; try lia.
  unfold IEEE.of_Z, binary_normalize. rewrite binary_round_eq.
  set (e' := fexp prec emax (Zdigits2 (Zpos m) + 0)).
  destruct (Z.ltb_spec e' 0).
  - apply binary_round_aux_nonzero.
    + apply Z.mul_pos_pos; [lia|apply Z.pow_pos_nonneg; lia].
    + subst e'. apply fexp_ge_emin.
  - apply binary_round_aux_nonzero; [lia|]. unfold emin. lia.
Qed.

End Quotient.

(** * Python floats as keys: the spacing table *)


Section Table.

Import Py.

Lemma same_key_refl a : same_key a a = true.
Proof. unfold same_key. now rewrite Nat.eqb_refl. Qed.


(** The objects of the universe [U] are told apart by their identity. *)
Variable U : list float.
Hypothesis ids : forall a b, In a U -> In b U -> ob_id a = ob_id b -> a = b.














End Table.


Section Differences.

Import DataHandler.

Lemma differences_cons i0 a b ts :
  differences i0 (a :: b :: ts)
  = {| Py.ob_id := i0; Py.ob_fval := Py.float_sub (torch.item b) (torch.item a) |}
    :: differences (S i0) (b :: ts).
Proof. reflexivity. Qed.

Lemma differences_ids : forall ts i0 a,
  In a (differences i0 ts) -> (i0 <= Py.ob_id a)%nat.
Proof.
  induction ts as [|x ts IH]; intros i0 a Hin; [contradiction|].
  destruct ts as [|y ts]; [contradiction|].
  rewrite differences_cons in Hin. destruct Hin as [<-|Hin]; [simpl; lia|].
  apply IH in Hin. lia.
Qed.

Lemma differences_inj : forall ts i0 a b,
  In a (differences i0 ts) -> In b (differences i0 ts) ->
  Py.ob_id a = Py.ob_id b -> a = b.
Proof.
  induction ts as [|x ts IH]; intros i0 a b Ha Hb E; [contradiction|].
  destruct ts as [|y ts]; [contradiction|].
  rewrite differences_cons in Ha, Hb. destruct Ha as [<-|Ha], Hb as [<-|Hb].
  - reflexivity.
  - apply differences_ids in Hb. simpl in E. lia.
  - apply differences_ids in Ha. simpl in E. lia.
  - eapply IH; eassumption.
Qed.




End Differences.


(** * Rounded numbers and the training times *)

Section Rounding.

Variables prec emax : Z.
Hypothesis Hprec : 1 < prec.

Lemma round_valid x :
  valid_binary prec emax x = true ->
  valid_binary prec emax (IEEE.round prec emax x) = true.
Proof.
  intros Hv. destruct x as [s|s| |s m e]; try exact Hv.
  unfold IEEE.round. destruct e as [|p|p]; try exact Hv.
  destruct (round_nearest_even _ _); try reflexivity.
  now apply binary_round_valid.
Qed.

(** A finite result of [IEEE.round] is an integer. *)
Lemma round_integral x :
  IEEE.is_finite (IEEE.round prec emax x) = true ->
  exists z, IEEE.to_Z (IEEE.round prec emax x) = Some z.
Proof.
  destruct x as [s|s| |s m e]; try discriminate.
  - intros _. now exists 0.
  - unfold IEEE.round. destruct e as [|p|p].
    + intros _. simpl. eexists. reflexivity.
    + intros _. simpl. eexists. reflexivity.
    + destruct (round_nearest_even _ _) as [|n|n]; try (intros _; now exists 0).
      destruct (binary_round prec emax s n 0) as [s'|s'| |s' mf ef] eqn:E; try discriminate.
      * intros _. now exists 0.
      * intros _. apply binary_round_bracket in E; [|exact Hprec].
        destruct E as [-> [[Hle Em]|[Hlt _]]].
        -- exists (cond_Zopp s (Zpos n)). apply to_Z_finite. exists (Zpos n).
           split; [reflexivity|].
           replace (Z.max 0 ef) with 0 by lia. replace (Z.max 0 (- ef)) with (0 - ef) by lia.
           rewrite Em. now rewrite Z.pow_0_r, Z.mul_1_r.
        -- exists (cond_Zopp s (Zpos mf * 2 ^ ef)). apply to_Z_finite.
           exists (Zpos mf * 2 ^ ef). split; [reflexivity|].
           replace (Z.max 0 ef) with ef by lia. replace (Z.max 0 (- ef)) with 0 by lia.
           now rewrite Z.pow_0_r, Z.mul_1_r.
Qed.

End Rounding.

Section Item.

Variable dt : dtype.

Lemma item_to_Z x :
  valid_binary (dprec dt) (demax dt) x = true ->
  IEEE.to_Z (torch.item x) = IEEE.to_Z x.
Proof.
  intros Hv. destruct x as [s|s| |s m e]; try reflexivity.
  unfold torch.item.
  destruct (cast_widen 53 1024 (dprec dt) (demax dt) s m e) as [Hj ->];
    try assumption.
  - pose proof (dprec_gt_1 dt). lia.
  - apply dprec_le_53.
  - apply demax_le_1024.
  - apply demin_ge.
  - now apply to_Z_shift.
Qed.

Lemma item_finite x :
  valid_binary (dprec dt) (demax dt) x = true ->
  IEEE.is_finite (torch.item x) = IEEE.is_finite x.
Proof.
  intros Hv. destruct x as [s|s| |s m e]; try reflexivity.
  unfold torch.item.
  destruct (cast_widen 53 1024 (dprec dt) (demax dt) s m e) as [Hj ->];
    try assumption; try reflexivity.
  - pose proof (dprec_gt_1 dt). lia.
  - apply dprec_le_53.
  - apply demax_le_1024.
  - apply demin_ge.
Qed.

(** A tensor element read with [item] and met again as a scalar is the
    element. *)
Lemma scalar_item x :
  valid_binary (dprec dt) (demax dt) x = true ->
  torch.scalar dt (torch.item x) = x.
Proof.
  intros Hv. destruct x as [s|s| |s m e]; try reflexivity.
  unfold torch.item, torch.scalar.
  destruct (cast_widen 53 1024 (dprec dt) (demax dt) s m e) as [Hj ->];
    try assumption.
  - pose proof (dprec_gt_1 dt). lia.
  - apply dprec_le_53.
  - apply demax_le_1024.
  - apply demin_ge.
  - apply cast_narrow; try assumption.
    + apply dprec_gt_1.
    + apply dprec_lt_demax.
Qed.

End Item.

Section Chain.

Import DataHandler.

Variable dt : dtype.

Lemma sub_not_finite_l x y :
  IEEE.is_finite x = false -> Py.float_eq (Py.float_sub x y) Py.one = false.
Proof.
  destruct x as [s|s| |s m e]; try discriminate; intros _.
  - destruct y as [sy|sy| |sy my ey]; try reflexivity; destruct s, sy; reflexivity.
  - destruct y; reflexivity.
Qed.

Lemma unit_step x y a :
  Spec.rounded dt x -> Spec.rounded dt y -> IEEE.to_Z x = Some a ->
  Py.float_eq (Py.float_sub (torch.item y) (torch.item x)) Py.one = true ->
  IEEE.to_Z y = Some (a + 1).
Proof.
  intros [Vx _] [Vy Iy] Hx H.
  destruct (IEEE.is_finite y) eqn:Fy.
  - destruct (Iy eq_refl) as [z Hz]. rewrite Hz. f_equal.
    apply (float_sub_one (torch.item y) (torch.item x)); try assumption.
    + now rewrite (item_to_Z dt).
    + now rewrite (item_to_Z dt).
  - rewrite sub_not_finite_l in H; [discriminate|].
    now rewrite (item_finite dt).
Qed.

Lemma unit_steps l : forall i0 x a,
  Forall (Spec.rounded dt) (x :: l) -> IEEE.to_Z x = Some a ->
  (forall d, In d (differences i0 (x :: l)) -> Py.float_eq (Py.ob_fval d) Py.one = true) ->
  map IEEE.to_Z (x :: l)
  = map (fun i => Some (a + Z.of_nat i)) (seq 0 (S (List.length l))).
Proof.
  induction l as [|y l IH]; intros i0 x a Hall Hx Hd.
  - simpl. rewrite Hx. do 2 f_equal. lia.
  - inversion Hall as [|? ? Rx Hall']; subst. inversion Hall' as [|? ? Ry _]; subst.
    rewrite differences_cons in Hd.
    assert (Hy : IEEE.to_Z y = Some (a + 1)).
    { apply (unit_step x y a Rx Ry Hx). apply (Hd _ (or_introl eq_refl)). }
    specialize (IH (S i0) y (a + 1) Hall' Hy (fun d H => Hd d (or_intror H))).
    change (map IEEE.to_Z (x :: y :: l)) with (IEEE.to_Z x :: map IEEE.to_Z (y :: l)).
    rewrite IH, Hx.
    change (seq 0 (S (List.length (y :: l)))) with (0%nat :: seq 1 (S (List.length l))).
    rewrite <- seq_shift. cbn [map]. rewrite map_map. f_equal; [f_equal; lia|].
    apply map_ext. intros i. f_equal. lia.
Qed.

End Chain.

Section SetOfDifferences.

Import Py.

Lemma existsb_incl {A} (f : A -> bool) (s r : list A) :
  incl s r -> existsb f s = true -> existsb f r = true.
Proof.
  intros Hi H. apply existsb_exists in H. destruct H as [x [Hx Hf]].
  apply existsb_exists. exists x. split; [now apply Hi|assumption].
Qed.

Lemma set_fold D : forall s,
  incl s (fold_left add D s)
  /\ (forall x, In x D -> existsb (fun y => same_key y x) (fold_left add D s) = true)
  /\ (forall k, In k (fold_left add D s) -> In k s \/ In k D).
Proof.
  induction D as [|x D IH]; intros s; simpl.
  - repeat split; [apply incl_refl|contradiction|auto].
  - destruct (IH (add s x)) as (Hi & He & Hk).
    assert (Hs : incl s (add s x)).
    { unfold add. destruct (existsb _ s); [apply incl_refl|apply incl_appl, incl_refl]. }
    assert (Hx : existsb (fun y => same_key y x) (add s x) = true).
    { unfold add. destruct (existsb (fun y => same_key y x) s) eqn:E; [exact E|].
      rewrite existsb_app. simpl. now rewrite same_key_refl, orb_true_r. }
    repeat split.
    + eapply incl_tran; eassumption.
    + intros y [<-|Hy]; [eapply existsb_incl; eassumption|now apply He].
    + intros k Hin. destruct (Hk k Hin) as [H|H]; [|right; now right].
      unfold add in H. destruct (existsb _ s); [now left|].
      apply in_app_or in H. destruct H as [H|[<-|[]]]; [now left|right; now left].
Qed.

(** [set(D) == {1}] says that there are differences and that all are 1. *)
Lemma set_eq_one_iff D :
  (forall a b, In a D -> In b D -> ob_id a = ob_id b -> a = b) ->
  set_eq_one (set D) = true <->
  D <> [] /\ forall d, In d D -> float_eq (ob_fval d) one = true.
Proof.
  intros ids. unfold set_eq_one, set.
  destruct (set_fold D []) as (_ & He & Hk).
  split.
  - intros H. apply andb_true_iff in H. destruct H as [Hlen Hall].
    apply Nat.eqb_eq in Hlen. rewrite forallb_forall in Hall.
    destruct (fold_left add D []) as [|k [|k' r]] eqn:E; try discriminate.
    assert (HkD : In k D) by (destruct (Hk k (or_introl eq_refl)) as [[]|H]; exact H).
    assert (Hk1 : float_eq (ob_fval k) one = true) by (apply Hall; now left).
    split.
    + intros ->. contradiction.
    + intros d Hd. specialize (He d Hd). simpl in He. rewrite orb_false_r in He.
      unfold same_key in He. apply orb_true_iff in He. destruct He as [Hid|Heq].
      * apply Nat.eqb_eq in Hid. now rewrite <- (ids k d HkD Hd Hid).
      * unfold float_eq in *. rewrite SFeqb_sym in Heq.
        eapply SFeqb_trans; eassumption.
  - intros [Hne Hall].
    destruct D as [|x D']; [congruence|].
    assert (Hone : forall k, In k (fold_left add (x :: D') []) ->
              float_eq (ob_fval k) one = true).
    { intros k Hin. destruct (Hk k Hin) as [[]|H]. now apply Hall. }
    assert (Hsame : forall a b, float_eq (ob_fval a) one = true ->
              float_eq (ob_fval b) one = true -> same_key a b = true).
    { intros a b Ha Hb. unfold same_key. apply orb_true_iff. right.
      unfold float_eq in *. rewrite SFeqb_sym in Hb. eapply SFeqb_trans; eassumption. }
    apply andb_true_iff. split.
    + (* all elements are the same key, and a set holds a key once *)
      assert (Hlen : forall D s, (length s <= 1)%nat ->
                (forall k, In k s -> float_eq (ob_fval k) one = true) ->
                (forall d, In d D -> float_eq (ob_fval d) one = true) ->
                (length (fold_left add D s) <= 1)%nat).
      { clear - Hsame. induction D as [|y D IH]; intros s Hs Hks HD; simpl; [exact Hs|].
        apply IH.
        - unfold add. destruct s as [|k s]; [simpl; lia|].
          simpl. rewrite (Hsame k y); [exact Hs| |].
          + apply Hks. now left.
          + apply HD. now left.
        - intros k Hin. unfold add in Hin. destruct (existsb _ s); [now apply Hks|].
          apply in_app_or in Hin. destruct Hin as [H|[<-|[]]]; [now apply Hks|].
          apply HD. now left.
        - intros d Hd. apply HD. now right. }
      specialize (Hlen (x :: D') [] ltac:(simpl; lia) ltac:(intros ? []) Hall).
      specialize (He x (or_introl eq_refl)).
      destruct (fold_left add (x :: D') []) as [|k [|k' r]]; simpl in *;
        [discriminate|reflexivity|lia].
    + apply forallb_forall. exact Hone.
Qed.

End SetOfDifferences.

Section TrainingTimes.

Import DataHandler utils.

Variable dt : dtype.

Lemma sub_self x :
  IEEE.is_zero (torch.sub dt x x) = true \/ torch.sub dt x x = S754_nan.
Proof.
  unfold torch.sub. destruct x as [s|s| |s m e].
  - left. destruct s; reflexivity.
  - right. destruct s; reflexivity.
  - right. reflexivity.
  - left. cbn [SFsub]. now rewrite Z.sub_diag.
Qed.

(** The rounded, scaled and shifted time of a sample. *)
Lemma rounded_times (t : list spec_float) (shift scale : spec_float) :
  torch.round dt (_scale dt (_shift dt t shift) scale)
  = map (fun x => IEEE.round (dprec dt) (demax dt)
                    (torch.div dt (torch.sub dt x (torch.scalar dt shift))
                                  (torch.scalar dt scale))) t.
Proof.
  unfold torch.round, _scale, _shift. cbn [torch.tmap torch.vector].
  now rewrite !map_map.
Qed.

Lemma first_time t0 scale :
  valid_binary (dprec dt) (demax dt) t0 = true ->
  let r0 := IEEE.round (dprec dt) (demax dt)
              (torch.div dt (torch.sub dt t0 (torch.scalar dt (torch.item t0))) scale) in
  IEEE.is_zero r0 = true \/ r0 = S754_nan.
Proof.
  intros Hv. rewrite (scalar_item dt t0 Hv).
  destruct (sub_self t0) as [Hz| ->].
  - destruct (torch.sub dt t0 t0) as [s| | |]; try discriminate.
    unfold torch.div. destruct scale as [s'|s'| |s' m' e']; simpl; auto.
  - right. reflexivity.
Qed.

Lemma rounded_time x shift scale :
  Spec.rounded dt (IEEE.round (dprec dt) (demax dt)
                (torch.div dt (torch.sub dt x shift) scale)).
Proof.
  pose proof (dprec_gt_1 dt). pose proof (dprec_lt_demax dt).
  split.
  - apply round_valid; [assumption|]. apply SFdiv_valid; assumption.
  - now apply round_integral.
Qed.

Lemma times_contiguous t0 rest scale :
  valid_binary (dprec dt) (demax dt) t0 = true ->
  let R := torch.round dt (_scale dt (_shift dt (t0 :: rest) (torch.item t0)) scale) in
  Py.set_eq_one (Py.set (differences 0 R)) = true ->
  map IEEE.to_Z R = map (fun i => Some (Z.of_nat i)) (seq 0 (length (t0 :: rest))).
Proof.
  intros Hv R Hset.
  apply set_eq_one_iff in Hset; [|apply differences_inj].
  destruct Hset as [Hne Hall].
  subst R. rewrite rounded_times in *.
  set (g := fun x => IEEE.round (dprec dt) (demax dt)
                (torch.div dt (torch.sub dt x (torch.scalar dt (torch.item t0)))
                   (torch.scalar dt scale))) in *.
  change (map g (t0 :: rest)) with (g t0 :: map g rest) in *.
  assert (HR : Forall (Spec.rounded dt) (g t0 :: map g rest)).
  { apply Forall_forall. intros y Hy.
    change (g t0 :: map g rest) with (map g (t0 :: rest)) in Hy.
    apply in_map_iff in Hy. destruct Hy as [x [<- _]]. apply rounded_time. }
  assert (H0 : IEEE.to_Z (g t0) = Some 0).
  { destruct (first_time t0 (torch.scalar dt scale) Hv) as [Hz|Hnan]; fold (g t0) in *.
    - destruct (g t0); try discriminate. reflexivity.
    - exfalso. destruct (map g rest) as [|r1 R'] eqn:E; [now apply Hne|].
      rewrite differences_cons in Hall.
      specialize (Hall _ (or_introl eq_refl)). cbn [Py.ob_fval] in Hall.
      rewrite Hnan in Hall. unfold Py.float_sub, torch.item in Hall. simpl IEEE.cast in Hall.
      destruct (IEEE.cast 53 1024 r1); discriminate. }
  rewrite (unit_steps dt (map g rest) 0%nat (g t0) 0 HR H0 Hall).
  rewrite length_map. cbn [length]. apply map_ext. intros i. reflexivity.
Qed.

End TrainingTimes.


(** * Properties of the error metrics *)

Section AnaeNaN.

Import torch errors.

Variable dt : dtype.

Lemma add_nan_r x : add dt x S754_nan = S754_nan.
Proof. destruct x as [ | | |s m e]; try reflexivity; destruct s; reflexivity. Qed.

Lemma fold_add_nan l : fold_left (add dt) l S754_nan = S754_nan.
Proof. induction l as [|x l IH]; simpl; [reflexivity|]. exact IH. Qed.

Lemma sum_nan_acc l : forall a, In S754_nan l -> fold_left (add dt) l a = S754_nan.
Proof.
  induction l as [|x l IH]; intros a Hin; simpl in *; [contradiction|].
  destruct Hin as [->|Hin].
  - rewrite add_nan_r. apply fold_add_nan.
  - apply IH, Hin.
Qed.

Lemma mean_nan l : In S754_nan l -> mean dt l = S754_nan.
Proof.
  intros Hin. unfold mean, sum. rewrite sum_nan_acc by exact Hin. reflexivity.
Qed.

Lemma mul_nan_r x : mul dt x S754_nan = S754_nan.
Proof. destruct x; reflexivity. Qed.

Lemma ratio_nth ref : forall new i r n,
  nth_error ref i = Some r -> nth_error new i = Some n ->
  nth_error (tdiv dt (abs (tsub dt ref new)) (abs ref)) i
  = Some (div dt (SFabs (sub dt r n)) (SFabs r)).
Proof.
  induction ref as [|r0 ref IH]; intros new i r n Hr Hn.
  - destruct i; discriminate.
  - destruct new as [|n0 new]; [destruct i; discriminate|].
    destruct i as [|i]; simpl in *.
    + congruence.
    + apply (IH new i r n Hr Hn).
Qed.

Lemma zero_ratio_nan r n :
  IEEE.is_zero r = true -> IEEE.is_zero n = true ->
  div dt (SFabs (sub dt r n)) (SFabs r) = S754_nan.
Proof.
  destruct r as [sr| | |]; try discriminate.
  destruct n as [sn| | |]; try discriminate.
  intros _ _. destruct sr, sn; reflexivity.
Qed.

End AnaeNaN.

(** C9. When some entry of the reference is zero and the entry of [new] at
    the same position is zero too, [anae] returns NaN: the ratio 0/0 is NaN,
    NaN differs from infinity, so the entry stays in the mean. *)
Theorem anae_zero_over_zero_is_nan :
  forall (dt : dtype) (ref new : list spec_float) (i : nat) (r n : spec_float),
    nth_error ref i = Some r -> nth_error new i = Some n ->
    IEEE.is_zero r = true -> IEEE.is_zero n = true ->
    errors.anae dt ref new = S754_nan.
Proof.
  intros dt ref new i r n Hr Hn Zr Zn.
  unfold errors.anae.
  rewrite mean_nan; [apply mul_nan_r|].
  unfold torch.select_ne_inf. apply filter_In. split; [|reflexivity].
  apply nth_error_In with (n := i).
  rewrite (ratio_nth dt ref new i r n Hr Hn).
  now rewrite zero_ratio_nan.
Qed.

Lemma anae_zero_over_zero_is_nan_witness :
  errors.anae float32 [Example.f32 3; S754_zero false] [Example.f32 2; S754_zero true]
  = S754_nan.
Proof.
  apply (anae_zero_over_zero_is_nan float32 _ _ 1%nat (S754_zero false) (S754_zero true));
    reflexivity.
Defined.

(** C2. At [ref = [0., 1.]] and [new = [0., 1.]] the program returns NaN,
    where the mean over the one position with a nonzero reference is 0: the
    position with reference zero is not excluded. *)
Theorem anae_keeps_zero_reference :
  errors.anae float32 [Example.f32 0; Example.f32 1] [Example.f32 0; Example.f32 1]
  = S754_nan
  /\ Spec.anae_nonzero_reference float32
       [Example.f32 0; Example.f32 1] [Example.f32 0; Example.f32 1]
     = S754_zero false.
Proof. split; vm_compute; reflexivity. Qed.

(** C4. On the tensors of the docstrings, [anae] rounded to one decimal is
    10.0 and [_naae] rounded to one decimal is 5.0 (100 and 50 tenths). *)
Theorem anae_naae_example :
  IEEE.tenths (errors.anae float32 (torch.flatten Example.ref) (torch.flatten Example.new))
  = Some 100
  /\ IEEE.tenths (errors._naae float32 (torch.flatten Example.ref) (torch.flatten Example.new))
     = Some 50.
Proof. split; vm_compute; reflexivity. Qed.

(** The two rounded values do not depend on the order and the grouping in
    which the reductions of [torch.mean] add the elements. *)
Lemma example_any_summation_order :
  (forall s, In s (Spec.sums float32 5 Example.ratios) ->
     IEEE.tenths (Example.anae_of_sum s) = Some 100)
  /\ (forall s1 s2,
        In s1 (Spec.sums float32 6 Example.deviations) ->
        In s2 (Spec.sums float32 6 Example.references) ->
        IEEE.tenths (Example.naae_of_sums s1 s2) = Some 50).
Proof.
  assert (Hround : forall t x, Example.rounds_to t x = true -> IEEE.tenths x = Some t).
  { intros t x. unfold Example.rounds_to. destruct (IEEE.tenths x) as [z|]; [|discriminate].
    intros H. apply Z.eqb_eq in H. now subst. }
  split.
  - assert (H : forallb (fun s => Example.rounds_to 100 (Example.anae_of_sum s))
                  (Spec.sums float32 5 Example.ratios) = true)
      by (vm_compute; reflexivity).
    rewrite forallb_forall in H. intros s Hs. apply Hround. exact (H s Hs).
  - assert (H : forallb
                  (fun s1 =>
                     forallb (fun s2 => Example.rounds_to 50 (Example.naae_of_sums s1 s2))
                       (Spec.sums float32 6 Example.references))
                  (Spec.sums float32 6 Example.deviations) = true)
      by (vm_compute; reflexivity).
    rewrite forallb_forall in H. intros s1 s2 H1 H2. specialize (H s1 H1).
    rewrite forallb_forall in H. apply Hround. exact (H s2 H2).
Qed.

Section AnaeSelf.

Import torch errors.

Variable dt : dtype.

Lemma self_ratio x :
  Spec.finite_nonzero x = true ->
  div dt (SFabs (sub dt x x)) (SFabs x) = S754_zero false.
Proof.
  destruct x as [s|s| |s m e]; try discriminate. intros _.
  unfold sub, div. cbn [SFsub]. rewrite Z.sub_diag. reflexivity.
Qed.

Lemma self_ratios X :
  forallb Spec.finite_nonzero X = true ->
  tdiv dt (abs (tsub dt X X)) (abs X) = map (fun _ => S754_zero false) X.
Proof.
  induction X as [|x X IH]; [reflexivity|]. cbn [forallb]. intros H.
  apply andb_true_iff in H. destruct H as [Hx HX].
  unfold tdiv, abs, tsub in *. cbn [combine map fst snd].
  rewrite (self_ratio x Hx). f_equal. now apply IH.
Qed.

Lemma select_zeros {A} (X : list A) :
  select_ne_inf (map (fun _ => S754_zero false) X) = map (fun _ => S754_zero false) X.
Proof. induction X as [|x X IH]; [reflexivity|]. simpl. now rewrite IH. Qed.

Lemma sum_zeros {A} (X : list A) :
  sum dt (map (fun _ => S754_zero false) X) = S754_zero false.
Proof. unfold sum. induction X as [|x X IH]; [reflexivity|]. simpl. exact IH. Qed.

Lemma mean_zeros {A} (X : list A) :
  X <> [] -> mean dt (map (fun _ => S754_zero false) X) = S754_zero false.
Proof.
  intros Hne. unfold mean. rewrite sum_zeros, length_map.
  destruct (of_Z_pos (dprec dt) (demax dt) (dprec_gt_1 dt) (dprec_lt_demax dt) (Z.of_nat (length X)))
    as (p & e & ->).
  - destruct X; [congruence|simpl; lia].
  - unfold IEEE.pack, div. destruct (e <=? demax dt - dprec dt); reflexivity.
Qed.

Lemma hundred_times_zero :
  mul dt (scalar dt Py.hundred) (S754_zero false) = S754_zero false.
Proof. destruct dt; reflexivity. Qed.

End AnaeSelf.

(** C5, as the program has it. The error of a tensor against itself is
    exactly 0 when the tensor has at least one element and all its elements
    are finite and not zero. *)
Theorem anae_self_is_zero :
  forall (dt : dtype) (X : list spec_float),
    X <> [] -> forallb Spec.finite_nonzero X = true ->
    errors.anae dt X X = S754_zero false.
Proof.
  intros dt X Hne Hfin. unfold errors.anae.
  rewrite self_ratios by exact Hfin.
  rewrite select_zeros, mean_zeros by exact Hne.
  apply hundred_times_zero.
Qed.

Lemma anae_self_is_zero_witness :
  errors.anae float32 [Example.f32 3; Example.f32 (-7)] [Example.f32 3; Example.f32 (-7)]
  = S754_zero false.
Proof.
  apply (anae_self_is_zero float32 [Example.f32 3; Example.f32 (-7)]);
    [discriminate|reflexivity].
Defined.

(** C5, as stated, fails on the tensor [[inf]]: its one position has a
    nonzero reference and is averaged, the ratio [|inf - inf| / |inf|] is
    NaN, and so is the error; the error of the tensor without elements is
    NaN too. *)
Lemma anae_self_of_infinity :
  torch.select_ne_inf
    (torch.tdiv float32 (torch.abs (torch.tsub float32 [Py.inf] [Py.inf])) (torch.abs [Py.inf]))
  = [S754_nan]
  /\ errors.anae float32 [Py.inf] [Py.inf] = S754_nan
  /\ errors.anae float32 [] [] = S754_nan.
Proof. repeat split. Qed.


(** * Properties of the data handler *)

(** C1. When the constructor succeeds, the stored training times are
    exactly the integers 0, 1, ..., n - 1; and when, after the shift, the
    scaling and the rounding, some difference of consecutive times is not
    1, the constructor raises the [ValueError] of the spacing check. *)
Theorem training_times_contiguous :
  forall cfg Xtr ttr Xva tva Xte tte,
    Spec.valid (_RTYPE cfg) ttr ->
    (forall h, DataHandler.__init__ cfg Xtr ttr Xva tva Xte tte = Py.Ok h ->
       map IEEE.to_Z (DataHandler.ttr h)
       = map (fun i => Some (Z.of_nat i)) (seq 0 (length ttr)))
    /\ (forall m t0 rest k,
          length Xtr = length ttr ->
          length (utils._tensorize Xva) = length (utils._tensorize tva) ->
          length (utils._tensorize Xte) = length (utils._tensorize tte) ->
          torch.max (torch.abs (torch.flatten Xtr)) = Py.Ok m ->
          ttr = t0 :: rest ->
          let dts := fold_left Py.incr
                       (DataHandler.differences 0
                          (utils._shift (_RTYPE cfg) ttr (torch.item t0))) [] in
          Py.max (Py.get dts) (Py.keys dts) = Some k ->
          let R := torch.round (_RTYPE cfg)
                     (utils._scale (_RTYPE cfg)
                        (utils._shift (_RTYPE cfg) ttr (torch.item t0)) (Py.ob_fval k)) in
          (exists d, In d (DataHandler.differences 0 R)
                     /\ Py.float_eq (Py.ob_fval d) Py.one = false) ->
          DataHandler.__init__ cfg Xtr ttr Xva tva Xte tte
          = Py.Raise (Py.ValueError (Py.not_equally_spaced ttr))).
Proof.
  intros cfg Xtr ttr Xva tva Xte tte Hv. split.
  - intros h. unfold DataHandler.__init__.
    destruct (Py.assert _ _) as [[]|e]; cbn [Py.bind]; [|discriminate].
    destruct (Py.assert _ _) as [[]|e]; cbn [Py.bind]; [|discriminate].
    destruct (Py.assert _ _) as [[]|e]; cbn [Py.bind]; [|discriminate].
    destruct (torch.max _) as [m|e]; cbn [Py.bind utils._tensorize]; [|discriminate].
    destruct ttr as [|t0 rest]; cbn [Py.bind]; [discriminate|].
    destruct (Py.max _ _) as [k|]; cbn [Py.bind]; [|discriminate].
    destruct (Py.set_eq_one _) eqn:Hset; cbn [negb]; [|discriminate].
    intros E. inversion E. cbn [DataHandler.ttr].
    apply times_contiguous; [|exact Hset].
    inversion Hv; assumption.
  - intros m t0 rest k E1 E2 E3 Hm Httr dts Hk R [d [Hd Hne]].
    unfold DataHandler.__init__. cbn [utils._tensorize].
    unfold Py.len. rewrite E1, E2, E3, !Nat.eqb_refl. cbn [Py.assert Py.bind].
    rewrite Hm. cbn [Py.bind]. subst ttr. cbn [Py.bind].
    fold dts. rewrite Hk. cbn [Py.bind]. fold R.
    destruct (Py.set_eq_one (Py.set (DataHandler.differences 0 R))) eqn:Hset; [|reflexivity].
    exfalso. apply set_eq_one_iff in Hset; [|apply differences_inj].
    destruct Hset as [_ Hall]. rewrite (Hall d Hd) in Hne. discriminate.
Qed.


Lemma training_times_contiguous_witness :
  match DataHandler.__init__ Example.cfg32 Example.Xtr3 Example.ttr3 None None None None with
  | Py.Raise e => False
  | Py.Ok h => map IEEE.to_Z (DataHandler.ttr h) = [Some 0; Some 1; Some 2]
  end.
Proof.
  assert (Hv : Spec.valid float32 Example.ttr3) by (repeat constructor).
  pose proof (proj1 (training_times_contiguous Example.cfg32 Example.Xtr3 Example.ttr3
                       None None None None Hv)) as H.
  destruct (DataHandler.__init__ Example.cfg32 Example.Xtr3 Example.ttr3
              None None None None) as [h|e] eqn:E.
  - exact (H h eq_refl).
  - vm_compute in E. discriminate E.
Defined.

(** C7. When the state matrix and the time vector of a split differ in
    length, in any of the three splits, the constructor raises an
    [AssertionError] whose message names the first such split and the two
    lengths; nothing of the contents of the arrays matters, since no
    normalization or time processing has happened. *)
Theorem size_mismatch_raises_assertion :
  forall cfg Xtr ttr Xva tva Xte tte,
    Py.len Xtr <> Py.len ttr
    \/ Py.len (utils._tensorize Xva) <> Py.len (utils._tensorize tva)
    \/ Py.len (utils._tensorize Xte) <> Py.len (utils._tensorize tte) ->
    DataHandler.__init__ cfg Xtr ttr Xva tva Xte tte
    = Py.Raise (Py.AssertionError
        (if negb (Nat.eqb (Py.len Xtr) (Py.len ttr))
         then DataHandler.size_message "Xtr" "ttr" (Py.len Xtr) (Py.len ttr)
         else if negb (Nat.eqb (Py.len (utils._tensorize Xva)) (Py.len (utils._tensorize tva)))
         then DataHandler.size_message "Xva" "tva"
                (Py.len (utils._tensorize Xva)) (Py.len (utils._tensorize tva))
         else DataHandler.size_message "Xte" "tte"
                (Py.len (utils._tensorize Xte)) (Py.len (utils._tensorize tte)))).
Proof.
  intros cfg Xtr ttr Xva tva Xte tte H. unfold DataHandler.__init__.
  change (utils._tensorize (Some Xtr)) with Xtr.
  change (utils._tensorize (Some ttr)) with ttr.
  destruct (Nat.eqb_spec (Py.len Xtr) (Py.len ttr)) as [E1|N1]; simpl; [|reflexivity].
  destruct (Nat.eqb_spec (Py.len (utils._tensorize Xva)) (Py.len (utils._tensorize tva)))
    as [E2|N2]; simpl; [|reflexivity].
  destruct (Nat.eqb_spec (Py.len (utils._tensorize Xte)) (Py.len (utils._tensorize tte)))
    as [E3|N3]; simpl; [|reflexivity].
  exfalso. destruct H as [H|[H|H]]; contradiction.
Qed.

Lemma size_mismatch_raises_assertion_witness :
  DataHandler.__init__ Example.cfg32
    (repeat [Example.f32 1] 10) (map Example.f32 [0; 1; 2; 3; 4; 5; 6; 7; 8])
    None None None None
  = Py.Raise (Py.AssertionError
      "Expected 'Xtr' and 'ttr' to have same length of 1st dimension, instead found 10 and 9").
Proof.
  apply (size_mismatch_raises_assertion Example.cfg32
           (repeat [Example.f32 1] 10) (map Example.f32 [0; 1; 2; 3; 4; 5; 6; 7; 8])
           None None None None).
  left. simpl. lia.
Defined.





(** C10, as the program has it. With one training sample whose state row
    has at least one column (and splits of matching lengths), the
    constructor raises the [ValueError] of [max] on the empty spacing
    table, not the one of the spacing check. *)
Theorem one_sample_raises_max_error :
  forall cfg row t Xva tva Xte tte,
    row <> [] ->
    Py.len (utils._tensorize Xva) = Py.len (utils._tensorize tva) ->
    Py.len (utils._tensorize Xte) = Py.len (utils._tensorize tte) ->
    DataHandler.__init__ cfg [row] [t] Xva tva Xte tte
    = Py.Raise (Py.ValueError Py.max_empty_sequence).
Proof.
  intros cfg row t Xva tva Xte tte Hrow Eva Ete. unfold DataHandler.__init__.
  rewrite Eva, Ete, !Nat.eqb_refl.
  cbn [utils._tensorize Py.len length Nat.eqb Py.assert Py.bind].
  destruct row as [|x row]; [congruence|]. reflexivity.
Qed.

Lemma one_sample_raises_max_error_witness :
  DataHandler.__init__ Example.cfg32 [[Example.f32 2; Example.f32 5]] [Example.f32 7]
    None None None None
  = Py.Raise (Py.ValueError Py.max_empty_sequence).
Proof.
  apply (one_sample_raises_max_error Example.cfg32 [Example.f32 2; Example.f32 5]
           (Example.f32 7) None None None None); [discriminate | reflexivity | reflexivity].
Defined.

(** C10, as stated, fails on a state matrix of one row and no column:
    [torch.max] of a tensor without elements raises a [RuntimeError] before
    the spacing table is built. *)
Lemma one_sample_no_column_runtime_error :
  DataHandler.__init__ Example.cfg32 [[]] [Example.f32 7] None None None None
  = Py.Raise Py.RuntimeError
  /\ DataHandler.__init__ Example.cfg32 [[]] [Example.f32 7] None None None None
     <> Py.Raise (Py.ValueError Py.max_empty_sequence).
Proof. split; [reflexivity | discriminate]. Qed.

Section Normalization.

Import torch utils.

Variable dt : dtype.

Lemma flatten_scale (X : list (list spec_float)) (scale : spec_float) :
  flatten (_scale dt X scale) = map (fun x => div dt x (scalar dt scale)) (flatten X).
Proof.
  unfold _scale. cbn [tmap flatten matrix]. symmetry. apply concat_map.
Qed.

Lemma SFabs_valid x :
  valid_binary (dprec dt) (demax dt) x = true ->
  valid_binary (dprec dt) (demax dt) (SFabs x) = true.
Proof. destruct x; auto. Qed.

Lemma item_finite_nonzero m :
  Spec.finite_nonzero (item m) = true -> Spec.finite_nonzero m = true.
Proof. destruct m; auto. Qed.

Lemma ratio_le_one a m :
  valid_binary (dprec dt) (demax dt) a = true ->
  valid_binary (dprec dt) (demax dt) m = true ->
  Spec.finite_nonzero m = true -> SFabs m = m -> SFabs a = a ->
  SFleb a m = true ->
  SFleb (div dt a m) (Spec.one dt) = true.
Proof.
  intros Va Vm Fm Am Aa Hle.
  pose proof (dprec_gt_1 dt) as Hp. pose proof (dprec_lt_demax dt) as He.
  destruct m as [| | |sm mm em]; try discriminate.
  destruct sm; [discriminate|].
  destruct a as [sa|sa| |sa ma ea]; try discriminate.
  - unfold div, Spec.one. rewrite one_eq by assumption. reflexivity.
  - destruct sa; discriminate.
  - destruct sa; [discriminate|]. unfold div, Spec.one. now apply div_le_one.
Qed.

(** After the division by the largest absolute value, finite and not
    zero, the largest absolute value is 1. *)
Lemma normalized_max (L : list spec_float) (m : spec_float) :
  Spec.valid dt L ->
  max (abs L) = Py.Ok m ->
  Spec.finite_nonzero (item m) = true ->
  max (abs (map (fun x => div dt x (scalar dt (item m))) L)) = Py.Ok (Spec.one dt).
Proof.
  intros HV Hmax Hfin. apply item_finite_nonzero in Hfin.
  pose proof (dprec_gt_1 dt) as Hp. pose proof (dprec_lt_demax dt) as He.
  destruct L as [|x0 L']; [discriminate|].
  cbn [abs map max] in Hmax. injection Hmax as Hm.
  assert (Hnan : IEEE.is_nan (fold_left max2 (map SFabs L') (SFabs x0)) = false)
    by (rewrite Hm; destruct m; try discriminate; reflexivity).
  destruct (fold_max2_spec (map SFabs L') (SFabs x0) Hnan) as [Hin Hall].
  rewrite Hm in Hin, Hall.
  change (SFabs x0 :: map SFabs L') with (map SFabs (x0 :: L')) in Hin, Hall.
  assert (Habs : forall a, In a (map SFabs (x0 :: L')) ->
            valid_binary (dprec dt) (demax dt) a = true /\ SFabs a = a).
  { intros a Ha. apply in_map_iff in Ha. destruct Ha as [x [<- Hx]].
    unfold Spec.valid in HV. rewrite Forall_forall in HV. split.
    - apply SFabs_valid. now apply HV.
    - destruct x; reflexivity. }
  destruct (Habs m Hin) as [Vm Am].
  rewrite (scalar_item dt m Vm).
  assert (E : abs (map (fun x => div dt x m) (x0 :: L'))
              = map (fun a => div dt a m) (map SFabs (x0 :: L'))).
  { unfold abs. rewrite !map_map. apply map_ext. intros x.
    unfold div. rewrite SFabs_div, Am. reflexivity. }
  rewrite E. cbn [map max]. f_equal.
  apply fold_max2_top.
  - unfold Spec.one. rewrite one_eq by assumption. reflexivity.
  - intros b Hb.
    change (div dt (SFabs x0) m :: map (fun a => div dt a m) (map SFabs L'))
      with (map (fun a => div dt a m) (map SFabs (x0 :: L'))) in Hb.
    apply in_map_iff in Hb. destruct Hb as [a [<- Ha]].
    destruct (Habs a Ha) as [Va Aa].
    apply ratio_le_one; auto.
  - change (div dt (SFabs x0) m :: map (fun a => div dt a m) (map SFabs L'))
      with (map (fun a => div dt a m) (map SFabs (x0 :: L'))).
    apply in_map_iff. exists m. split; [|exact Hin].
    destruct m as [| | |sm mm em]; try discriminate.
    unfold div, Spec.one. now apply div_self.
Qed.

End Normalization.

(** C3, as the program has it. With normalization enabled, the largest
    absolute value of the stored training matrix is 1 when the largest
    absolute value of the training data ([Xscale]) is finite and not
    zero. *)
Theorem normalized_training_max_is_one :
  forall cfg Xtr ttr Xva tva Xte tte h,
    normalize_Xdata cfg = true ->
    Spec.valid (_RTYPE cfg) (torch.flatten Xtr) ->
    DataHandler.__init__ cfg Xtr ttr Xva tva Xte tte = Py.Ok h ->
    Spec.finite_nonzero (DataHandler.Xscale h) = true ->
    torch.max (torch.abs (torch.flatten (DataHandler.Xtr h)))
    = Py.Ok (Spec.one (_RTYPE cfg)).
Proof.
  intros cfg Xtr ttr Xva tva Xte tte h Hnorm HV.
  unfold DataHandler.__init__.
  destruct (Py.assert _ _) as [[]|e]; cbn [Py.bind]; [|discriminate].
  destruct (Py.assert _ _) as [[]|e]; cbn [Py.bind]; [|discriminate].
  destruct (Py.assert _ _) as [[]|e]; cbn [Py.bind]; [|discriminate].
  cbn [utils._tensorize].
  destruct (torch.max (torch.abs (torch.flatten Xtr))) as [m|e] eqn:Hm;
    cbn [Py.bind]; [|discriminate].
  destruct ttr as [|t0 rest]; cbn [Py.bind]; [discriminate|].
  destruct (Py.max _ _) as [k|]; cbn [Py.bind]; [|discriminate].
  destruct (negb _); [discriminate|].
  rewrite Hnorm. intros E. injection E as <-. cbn [DataHandler.Xscale DataHandler.Xtr].
  intros Hfin. cbn [torch.flatten torch.matrix]. rewrite <- concat_map.
  now apply normalized_max.
Qed.

Lemma normalized_training_max_is_one_witness :
  match DataHandler.__init__ Example.cfg32 Example.Xtr3 Example.ttr3 None None None None with
  | Py.Raise e => False
  | Py.Ok h =>
      torch.max (torch.abs (torch.flatten (DataHandler.Xtr h))) = Py.Ok (Spec.one float32)
  end.
Proof.
  assert (Hv : Spec.valid float32 (torch.flatten Example.Xtr3)) by (repeat constructor).
  pose proof (normalized_training_max_is_one Example.cfg32 Example.Xtr3 Example.ttr3
                None None None None) as H.
  destruct (DataHandler.__init__ Example.cfg32 Example.Xtr3 Example.ttr3
              None None None None) as [h|e] eqn:E.
  - apply (H h eq_refl Hv eq_refl). vm_compute in E. injection E as <-. reflexivity.
  - vm_compute in E. discriminate E.
Defined.

(** C3, as stated, fails on training data that are all zero: [Xscale] is
    0, every stored element is 0/0 = NaN, and so is their maximum. *)
Lemma normalized_zero_data_is_nan :
  match DataHandler.__init__ Example.cfg32 [[Example.f32 0]; [Example.f32 0]]
          [Example.f32 3; Example.f32 4] None None None None with
  | Py.Ok h =>
      torch.max (torch.abs (torch.flatten (DataHandler.Xtr h))) = Py.Ok S754_nan
  | Py.Raise _ => False
  end.
Proof. vm_compute. reflexivity. Qed.
